(** * k8s-basic: the React client (frontend/src/app.js) and the deploy scripts

    The client is one component, [App], with three [useState] cells and two
    async functions.  An async function runs synchronously up to its first
    [await], is parked while the HTTP request is in flight, and is resumed
    with the outcome of the request.  The embedding keeps that shape: an
    async body is a [task] whose [await] nodes carry the continuation, and
    a small scheduler keeps the parked continuations together with the
    requests they wait for.

    The deploy scripts are embedded as the list of commands they run, with
    the exit status of every external command supplied by the environment. *)

From Stdlib Require Import List String Bool Arith ZArith Lia.
From Stdlib Require Ascii DecimalString.
Import ListNotations.
Open Scope string_scope.

(** ** Data *)

(** A record of the server's collection, [{id, name, email}]. *)
Record User := mkUser { id : Z; user_name : string; user_email : string }.

(** The value of the [newUser] cell, [{ name, email }]. *)
Record Draft := mkDraft { name : string; email : string }.

(** What an awaited promise settles to: fulfilled with a value, or rejected
    with the error that the [catch] clause binds. *)
Inductive outcome (A : Type) : Type :=
| Fulfilled (value : A)
| Rejected (error : string).
Arguments Fulfilled {A} value.
Arguments Rejected {A} error.

(** The three [useState] cells of [App] (lines 6-8). *)
Record View := mkView {
  users : list User;
  newUser : Draft;
  loading : bool
}.

(** ** Async bodies

    Every constructor is one statement of the source; [k] is the rest of
    the body.  [AxiosGet] and [AxiosPost] are the two [await] points: the
    continuation receives the outcome, which is how [try]/[catch] around an
    [await] reads here.  [Call] is a call of an async function whose promise
    is not awaited: the callee runs up to its first [await] and the caller
    goes on. *)
Inductive task : Type :=
| Return
| SetUsers (data : list User) (k : task)
| SetNewUser (d : Draft) (k : task)
| SetLoading (b : bool) (k : task)
| ConsoleError (msg : string) (error : string) (k : task)
| AxiosGet (url : string) (k : outcome (list User) -> task)
| AxiosPost (url : string) (body : Draft) (k : outcome unit -> task)
| Call (callee : task) (k : task).

Section App.

(** [process.env.REACT_APP_API_URL]: a string, or undefined. *)
Variable REACT_APP_API_URL : option string.

(** JavaScript truthiness of a string: every string but the empty one. *)
Definition truthy (s : string) : bool := negb (String.eqb s "").

(** Line 10:
    [const API_BASE_URL = process.env.REACT_APP_API_URL || 'http://localhost:5000/api';] *)
Definition API_BASE_URL : string :=
  match REACT_APP_API_URL with
  | Some s => if truthy s then s else "http://localhost:5000/api"
  | None => "http://localhost:5000/api"
  end.

(** Lines 16-26. *)
Definition fetchUsers : task :=
  SetLoading true (
  AxiosGet (API_BASE_URL ++ "/users") (fun response =>
    match response with
    | Fulfilled data =>
        SetUsers data (
        SetLoading false Return)
    | Rejected error =>
        ConsoleError "Error fetching users:" error (
        SetLoading false Return)
    end)).

(** Lines 28-37.  [newUser] is the value of the cell in the render whose
    handler is running; [e.preventDefault()] has no effect on the cells. *)
Definition createUser (newUser : Draft) : task :=
  AxiosPost (API_BASE_URL ++ "/users") newUser (fun response =>
    match response with
    | Fulfilled _ =>
        SetNewUser (mkDraft "" "") (
        Call fetchUsers Return)
    | Rejected error =>
        ConsoleError "Error creating user:" error Return
    end).

End App.

(** ** The scheduler *)

(** A parked async body: the request it awaits and what runs afterwards. *)
Inductive suspended : Type :=
| OnGet (url : string) (k : outcome (list User) -> task)
| OnPost (url : string) (body : Draft) (k : outcome unit -> task).

(** A request in flight.  [rid] numbers the requests in the order they are
    issued; [parent] is the request whose settlement issued this one, or
    [None] when an event handler of the page issued it. *)
Record pending := mkPending {
  rid : nat;
  parent : option nat;
  susp : suspended
}.

Record World := mkWorld {
  view : View;
  console : list (string * string);
  inflight : list pending;
  next_rid : nat;
  mounted : bool
}.

Definition with_view (f : View -> View) (w : World) : World :=
  mkWorld (f (view w)) (console w) (inflight w) (next_rid w) (mounted w).

Definition setUsers (data : list User) (v : View) : View :=
  mkView data (newUser v) (loading v).
Definition setNewUser (d : Draft) (v : View) : View :=
  mkView (users v) d (loading v).
Definition setLoading (b : bool) (v : View) : View :=
  mkView (users v) (newUser v) b.

Definition console_error (msg error : string) (w : World) : World :=
  mkWorld (view w) (console w ++ [(msg, error)]) (inflight w) (next_rid w)
          (mounted w).

(** Issue a request and park the body that awaits it. *)
Definition park (par : option nat) (s : suspended) (w : World) : World :=
  mkWorld (view w) (console w)
          (mkPending (next_rid w) par s :: inflight w)
          (S (next_rid w)) (mounted w).

(** Run a body up to its end or its first [await]. *)
Fixpoint exec (par : option nat) (t : task) (w : World) : World :=
  match t with
  | Return => w
  | SetUsers data k => exec par k (with_view (setUsers data) w)
  | SetNewUser d k => exec par k (with_view (setNewUser d) w)
  | SetLoading b k => exec par k (with_view (setLoading b) w)
  | ConsoleError msg error k => exec par k (console_error msg error w)
  | AxiosGet url k => park par (OnGet url k) w
  | AxiosPost url body k => park par (OnPost url body k) w
  | Call callee k => exec par k (exec par callee w)
  end.

Definition find_pending (r : nat) (l : list pending) : option pending :=
  find (fun p => Nat.eqb (rid p) r) l.

Definition settle (r : nat) (w : World) : World :=
  mkWorld (view w) (console w)
          (filter (fun p => negb (Nat.eqb (rid p) r)) (inflight w))
          (next_rid w) (mounted w).

(** What can happen to the page. *)
Inductive event : Type :=
| Mount
| ChangeName (value : string)
| ChangeEmail (value : string)
| Submit
| GetDone (r : nat) (response : outcome (list User))
| PostDone (r : nat) (response : outcome unit).

(** [useState([])], [useState({ name: '', email: '' })], [useState(true)];
    nothing has been requested and the effect of line 12 has not run. *)
Definition init : World :=
  mkWorld (mkView [] (mkDraft "" "") true) [] [] 0 false.

Section Page.

Variable env : option string.

(** One event.  [Mount] is the effect of lines 12-14, which runs once,
    after the first render and before the page handles any input.
    [ChangeName] and [ChangeEmail] are the [onChange] handlers of lines 50
    and 57, [Submit] is [onSubmit={createUser}].  [GetDone] and [PostDone]
    resume the body parked on request [r]; they are disabled when no such
    request is in flight.  [Submit] is offered in every mounted state: the
    browser's validation of the two inputs ([required], [type="email"]) can
    only withhold a submit, so the runs of the page are among the runs
    here. *)
Definition step (w : World) (e : event) : option World :=
  match e with
  | Mount =>
      if mounted w then None
      else Some (exec None (fetchUsers env)
                   (mkWorld (view w) (console w) (inflight w) (next_rid w) true))
  | ChangeName value =>
      if mounted w
      then Some (with_view
                   (fun v => setNewUser (mkDraft value (email (newUser v))) v) w)
      else None
  | ChangeEmail value =>
      if mounted w
      then Some (with_view
                   (fun v => setNewUser (mkDraft (name (newUser v)) value) v) w)
      else None
  | Submit =>
      if mounted w
      then Some (exec None (createUser env (newUser (view w))) w)
      else None
  | GetDone r response =>
      match find_pending r (inflight w) with
      | Some (mkPending _ _ (OnGet _ k)) =>
          Some (exec (Some r) (k response) (settle r w))
      | _ => None
      end
  | PostDone r response =>
      match find_pending r (inflight w) with
      | Some (mkPending _ _ (OnPost _ _ k)) =>
          Some (exec (Some r) (k response) (settle r w))
      | _ => None
      end
  end.

(** A run of events, oldest first. *)
Fixpoint run (w : World) (tr : list event) : option World :=
  match tr with
  | [] => Some w
  | e :: tr' =>
      match step w e with
      | Some w' => run w' tr'
      | None => None
      end
  end.

End Page.

(** ** Observations on a world *)

Definition is_get (p : pending) : bool :=
  match susp p with
  | OnGet _ _ => true
  | OnPost _ _ _ => false
  end.

(** The list-fetches in flight. *)
Definition gets_in_flight (w : World) : list pending :=
  filter is_get (inflight w).

(** The part of [fetchUsers] after its [await] (lines 20-25), read off the
    body itself. *)
Definition fetchUsers_k (env : option string) : outcome (list User) -> task :=
  match fetchUsers env with
  | SetLoading _ (AxiosGet _ k) => k
  | _ => fun _ => Return
  end.

(** The part of [createUser] after its [await] (lines 32-36). *)
Definition createUser_k (env : option string) : outcome unit -> task :=
  match createUser env (mkDraft "" "") with
  | AxiosPost _ _ k => k
  | _ => fun _ => Return
  end.

(** The only bodies the page ever parks: [fetchUsers] on its GET and
    [createUser] on its POST. *)
Definition parked_by_app (env : option string) (p : pending) : Prop :=
  susp p = OnGet (API_BASE_URL env ++ "/users") (fetchUsers_k env) \/
  exists d, susp p = OnPost (API_BASE_URL env ++ "/users") d (createUser_k env).

Definition well_parked (env : option string) (w : World) : Prop :=
  forall p, In p (inflight w) -> parked_by_app env p.

(** Request numbers are fresh, and a request issued by the settlement of
    request [k] is not in flight together with [k]. *)
Definition sequenced (w : World) : Prop :=
  forall p, In p (inflight w) ->
    rid p < next_rid w /\
    forall k, parent p = Some k ->
      k < next_rid w /\ forall q, In q (inflight w) -> rid q <> k.



(** The data delivered by the most recent list-fetch of a run that
    completed with a response, if there is one. *)
Definition fetched (acc : option (list User)) (e : event)
  : option (list User) :=
  match e with
  | GetDone _ (Fulfilled data) => Some data
  | _ => acc
  end.

Definition last_fetch_data (tr : list event) : option (list User) :=
  fold_left fetched tr None.

(** The same, with the initial value of the [users] cell, [useState([])],
    while no list-fetch has delivered anything. *)
Definition fetched_or_initial (o : option (list User)) : list User :=
  match o with
  | Some data => data
  | None => []
  end.

(** The world a run from the first render ends in ([init] when some event
    of the run is disabled). *)
Definition world_after (env : option string) (tr : list event) : World :=
  match run env init tr with
  | Some w => w
  | None => init
  end.

(** ** deploy.sh *)

Module DeploySh.

Inductive command : Type :=
| Echo (msg : string)
| External (line : string).

(** Lines 6-31, comments left out. *)
Definition script : list command :=
  [ Echo "Building Docker images...";
    External "docker build -t your-registry/backend-api:latest ./backend";
    External "docker push your-registry/backend-api:latest";
    External "docker build -t your-registry/frontend-app:latest ./frontend";
    External "docker push your-registry/frontend-app:latest";
    Echo "Deploying to AKS...";
    External "kubectl apply -f k8s/namespace.yaml";
    External "kubectl apply -f k8s/backend-deployment.yaml";
    External "kubectl apply -f k8s/backend-service.yaml";
    External "kubectl apply -f k8s/frontend-deployment.yaml";
    External "kubectl apply -f k8s/frontend-service.yaml";
    External "kubectl apply -f k8s/configmap.yaml";
    External "kubectl apply -f k8s/hpa.yaml";
    Echo "Deployment complete!";
    Echo "Check status with: kubectl get pods -n microservice-demo";
    Echo "Get service URL with: kubectl get svc -n microservice-demo" ].

(** What a run leaves behind: the exit status and the external commands
    that were started, oldest first. *)
Record result := mkResult { exit_status : Z; started : list string }.

(** The shell runs the commands in order.  The script sets no [-e] and
    tests no status, so a command's status only matters when it is the
    last one: the script exits with the status of its last command.
    [echo] returns 0. *)
Fixpoint sh (status_of : string -> Z) (cmds : list command) (acc : result)
  : result :=
  match cmds with
  | [] => acc
  | Echo _ :: rest => sh status_of rest (mkResult 0 (started acc))
  | External line :: rest =>
      sh status_of rest
         (mkResult (status_of line) (started acc ++ [line]))
  end.

Definition deploy_sh (status_of : string -> Z) : result :=
  sh status_of script (mkResult 0 []).

Definition externals (cmds : list command) : list string :=
  flat_map (fun c => match c with Echo _ => [] | External l => [l] end) cmds.

End DeploySh.

(** ** More observations on the client *)

(** The URL a parked body has sent its request to. *)
Definition url_of (s : suspended) : string :=
  match s with
  | OnGet url _ => url
  | OnPost url _ _ => url
  end.

(** The events whose handler calls [axios.get] or [axios.post]: the mount
    effect (a GET), the submit (a POST) and a fulfilled POST (the GET of the
    [fetchUsers] that [createUser] calls). *)
Definition issues_request (e : event) : bool :=
  match e with
  | Mount | Submit | PostDone _ (Fulfilled _) => true
  | _ => false
  end.

(** What an event makes the two [catch] clauses write (lines 22 and 35). *)
Definition logged (e : event) : list (string * string) :=
  match e with
  | GetDone _ (Rejected error) => [("Error fetching users:", error)]
  | PostDone _ (Rejected error) => [("Error creating user:", error)]
  | _ => []
  end.



(** The two [onChange] events. *)
Definition typing (e : event) : bool :=
  match e with
  | ChangeName _ | ChangeEmail _ => true
  | _ => false
  end.

(** ** What [App] renders (lines 39-80) *)

Module Render.

(** The attributes the JSX uses.  [onSubmit={createUser}] raises [Submit];
    an [onChange] handler raises the event it is given for
    [e.target.value]. *)
Inductive attribute : Type :=
| ClassName (s : string)
| InputType (s : string)
| Placeholder (s : string)
| Value (s : string)
| Required
| Key (k : Z)
| OnSubmit (e : event)
| OnChange (handler : string -> event).

#[warnings="-register-all"]
Inductive node : Type :=
| Text (s : string)
| Tag (tag : string) (attributes : list attribute) (children : list node).

(** Lines 70-73: the card of one record. *)
Definition user_card (user : User) : node :=
  Tag "div" [Key (id user); ClassName "user-card"]
    [ Tag "h3" [] [Text (user_name user)];
      Tag "p" [] [Text (user_email user)] ].

(** Lines 39-80. *)
Definition render (v : View) : node :=
  Tag "div" [ClassName "App"]
    [ Tag "header" [ClassName "App-header"]
        [ Tag "h1" [] [Text "Microservice Demo"];
          Tag "form" [OnSubmit Submit; ClassName "user-form"]
            [ Tag "h2" [] [Text "Add New User"];
              Tag "input"
                [ InputType "text"; Placeholder "Name";
                  Value (name (newUser v)); OnChange ChangeName; Required ] [];
              Tag "input"
                [ InputType "email"; Placeholder "Email";
                  Value (email (newUser v)); OnChange ChangeEmail; Required ] [];
              Tag "button" [InputType "submit"] [Text "Add User"] ];
          Tag "div" [ClassName "users-section"]
            [ Tag "h2" [] [Text "Users"];
              if loading v
              then Tag "p" [] [Text "Loading..."]
              else Tag "div" [ClassName "users-grid"]
                     (map user_card (users v)) ] ] ].

Definition has_class (c : string) (n : node) : bool :=
  match n with
  | Text _ => false
  | Tag _ attributes _ =>
      existsb (fun a => match a with
                        | ClassName s => String.eqb s c
                        | _ => false
                        end) attributes
  end.

Definition has_placeholder (p : string) (n : node) : bool :=
  match n with
  | Text _ => false
  | Tag _ attributes _ =>
      existsb (fun a => match a with
                        | Placeholder s => String.eqb s p
                        | _ => false
                        end) attributes
  end.

(** The nodes of a tree that satisfy [sel], in document order. *)
Fixpoint select (sel : node -> bool) (n : node) : list node :=
  ((if sel n then [n] else []) ++
   match n with
   | Text _ => []
   | Tag _ _ children => flat_map (select sel) children
   end)%list.

(** The text of a tree, in document order. *)
Fixpoint texts (n : node) : list string :=
  match n with
  | Text s => [s]
  | Tag _ _ children => flat_map texts children
  end.

(** The [value] of a node, and its [onChange] handler. *)
Definition value_of (n : node) : option string :=
  match n with
  | Text _ => None
  | Tag _ attributes _ =>
      match find (fun a => match a with Value _ => true | _ => false end)
                 attributes with
      | Some (Value s) => Some s
      | _ => None
      end
  end.

Definition change_handler_of (n : node) : option (string -> event) :=
  match n with
  | Text _ => None
  | Tag _ attributes _ =>
      match find (fun a => match a with OnChange _ => true | _ => false end)
                 attributes with
      | Some (OnChange handler) => Some handler
      | _ => None
      end
  end.

End Render.

(** ** deploy.ps1, lines 98-290

    The script is written in a small monad: a statement runs against the
    machine it is started on and a state, and ends normally, with a thrown
    error, or with [exit].  Line 98 sets [$ErrorActionPreference = "Stop"],
    so [Write-Error] is a terminating error.  External command lines are given as the
    arguments the command receives, without the quoting of the script. *)

Module Ps1.

(** What starting an external command does: it cannot be started or
    otherwise raises a terminating error, or it runs and returns a status
    and its standard output. *)
Inductive native_result : Type :=
| Threw (error : string)
| Returned (status : Z) (output : string).

(** The machine.  [native n line] is the result of the external command
    [line] when it is the [n]-th command the script starts (from 0). *)
Record host := mkHost {
  has_command : string -> bool;
  native : nat -> string -> native_result;
  test_path : string -> bool
}.

Inductive stream : Type := Host | Warning | Error.

Record state := mkState {
  started : list string;
  shown : list (stream * string);
  LASTEXITCODE : Z;
  slept : nat
}.

Inductive flow (A : Type) : Type :=
| Normal (a : A)
| Thrown (error : string)
| Exit (status : Z).
Arguments Normal {A} a.
Arguments Thrown {A} error.
Arguments Exit {A} status.

Definition M (A : Type) : Type := host -> state -> flow A * state.

Definition ret {A : Type} (a : A) : M A := fun _ st => (Normal a, st).

Definition bind {A B : Type} (c : M A) (k : A -> M B) : M B :=
  fun h st =>
    match c h st with
    | (Normal a, st') => k a h st'
    | (Thrown error, st') => (Thrown error, st')
    | (Exit status, st') => (Exit status, st')
    end.

Notation "x <- c ;; k" := (bind c (fun x => k))
  (at level 61, c at next level, right associativity).
Notation "c ;; k" := (bind c (fun _ => k))
  (at level 61, right associativity).

(** [throw "..."] and [exit n]. *)
Definition throw {A : Type} (error : string) : M A :=
  fun _ st => (Thrown error, st).
Definition exit {A : Type} (status : Z) : M A :=
  fun _ st => (Exit status, st).

(** [Write-Error msg] under [$ErrorActionPreference = "Stop"]: the error
    is reported and thrown.  Every [Write-Error] of the script stands at top
    level or in a [catch], so nothing catches it, and the [exit 1] that
    follows each of them is never reached. *)
Definition Write_Error (msg : string) : M unit :=
  fun _ st =>
    (Thrown msg,
     mkState (started st) (shown st ++ [(Error, msg)]) (LASTEXITCODE st)
             (slept st)).

(** [try { body } catch { handler }]: the handler gets [$_]. *)
Definition try_catch {A : Type} (body : M A) (handler : string -> M A) : M A :=
  fun h st =>
    match body h st with
    | (Thrown error, st') => handler error h st'
    | r => r
    end.

Definition write (s : stream) (msg : string) : M unit :=
  fun _ st =>
    (Normal tt,
     mkState (started st) (shown st ++ [(s, msg)]) (LASTEXITCODE st) (slept st)).

Definition Write_Host : string -> M unit := write Host.
Definition Write_Warning : string -> M unit := write Warning.

(** Start an external command and hand back its output. *)
Definition invoke (line : string) : M string :=
  fun h st =>
    match native h (List.length (started st)) line with
    | Threw error =>
        (Thrown error,
         mkState (started st ++ [line]) (shown st) (LASTEXITCODE st) (slept st))
    | Returned status output =>
        (Normal output,
         mkState (started st ++ [line]) (shown st) status (slept st))
    end.

Definition lastexitcode : M Z := fun _ st => (Normal (LASTEXITCODE st), st).

(** [line] followed by [if ($LASTEXITCODE -ne 0) { throw failure }]. *)
Definition checked (line failure : string) : M unit :=
  invoke line ;;
  code <- lastexitcode ;;
  if negb (Z.eqb code 0) then throw failure else ret tt.

Definition Test_Path (path : string) : M bool :=
  fun h st => (Normal (test_path h path), st).

Definition Start_Sleep (seconds : nat) : M unit :=
  fun _ st =>
    (Normal tt,
     mkState (started st) (shown st) (LASTEXITCODE st) (slept st + seconds)).

(** Truth of a string in a condition: every string but the empty one. *)
Definition truthy (s : string) : bool := negb (String.eqb s "").

(** [-ne] on strings ignores case. *)
Definition lower (c : Ascii.ascii) : Ascii.ascii :=
  let n := Ascii.nat_of_ascii c in
  if Nat.leb 65 n && Nat.leb n 90 then Ascii.ascii_of_nat (n + 32) else c.

Fixpoint lowercase (s : string) : string :=
  match s with
  | EmptyString => EmptyString
  | String c rest => String (lower c) (lowercase rest)
  end.

Definition ne (a b : string) : bool :=
  negb (String.eqb (lowercase a) (lowercase b)).

Definition decimal (n : nat) : string :=
  DecimalString.NilZero.string_of_uint (Nat.to_uint n).

Fixpoint foreach {A : Type} (items : list A) (body : A -> M unit) : M unit :=
  match items with
  | [] => ret tt
  | item :: rest => body item ;; foreach rest body
  end.

(** Lines 101-105: [Get-Command $command -ErrorAction SilentlyContinue],
    then [return $?]. *)
Definition Test_CommandExists (command : string) : M bool :=
  fun h st => (Normal (has_command h command), st).

(** [if (-not (Test-CommandExists tool)) { Write-Error msg; exit 1 }]. *)
Definition require (tool msg : string) : M unit :=
  found <- Test_CommandExists tool ;;
  if negb found then Write_Error msg ;; exit 1 else ret tt.

(** Lines 107-125. *)
Definition check_prerequisites : M unit :=
  Write_Host "Starting deployment to AKS..." ;;
  Write_Host "Checking prerequisites..." ;;
  require "docker" "Docker is not installed or not in PATH" ;;
  require "kubectl" "kubectl is not installed or not in PATH" ;;
  require "az" "Azure CLI is not installed or not in PATH".

(** Lines 127-136. *)
Definition verify_azure : M unit :=
  Write_Host "Verifying Azure authentication..." ;;
  try_catch
    (account <- invoke "az account show --query name -o tsv" ;;
     Write_Host ("Logged in to Azure account: " ++ account))
    (fun _ =>
       Write_Error "Not logged into Azure. Please run 'az login' first." ;;
       exit 1).

(** Lines 138-147. *)
Definition verify_kubectl : M unit :=
  Write_Host "Verifying Kubernetes connection..." ;;
  try_catch
    (cluster <- invoke "kubectl config current-context" ;;
     Write_Host ("Connected to cluster: " ++ cluster))
    (fun _ =>
       Write_Error
         "kubectl not connected to cluster. Please run 'az aks get-credentials' first." ;;
       exit 1).

(** Line 151, the command. *)
Definition get_ingress_pods : string :=
  "kubectl get pods -n ingress-nginx -l app.kubernetes.io/name=ingress-nginx --ignore-not-found=true -o name".

(** Lines 149-174. *)
Definition ensure_ingress_controller : M unit :=
  Write_Host "Checking for NGINX Ingress Controller..." ;;
  ingressPods <- invoke get_ingress_pods ;;
  if negb (truthy ingressPods) then
    Write_Host "NGINX Ingress Controller not found. Installing..." ;;
    try_catch
      (Write_Host "Installing NGINX Ingress Controller..." ;;
       checked
         "kubectl apply -f https://raw.githubusercontent.com/kubernetes/ingress-nginx/controller-v1.8.2/deploy/static/provider/cloud/deploy.yaml"
         "Failed to install NGINX Ingress Controller" ;;
       Write_Host "Waiting for Ingress Controller to be ready..." ;;
       invoke "kubectl wait --namespace ingress-nginx --for=condition=ready pod --selector=app.kubernetes.io/component=controller --timeout=300s" ;;
       code <- lastexitcode ;;
       if negb (Z.eqb code 0)
       then Write_Warning
              "Timeout waiting for Ingress Controller. It may still be starting up."
       else Write_Host "NGINX Ingress Controller is ready!")
      (fun error =>
         Write_Error ("Failed to install NGINX Ingress Controller: " ++ error) ;;
         exit 1)
  else
    Write_Host "NGINX Ingress Controller is already installed.".

(** Lines 176-203. *)
Definition build_and_push : M unit :=
  Write_Host "Building and pushing Docker images..." ;;
  try_catch
    (Write_Host "Building backend image..." ;;
     checked "docker build -t kangarooreg.azurecr.io/backend-api:latest ./backend"
             "Backend build failed" ;;
     Write_Host "Pushing backend image..." ;;
     checked "docker push kangarooreg.azurecr.io/backend-api:latest"
             "Backend push failed" ;;
     Write_Host "Building frontend image..." ;;
     checked "docker build -t kangarooreg.azurecr.io/frontend-app:latest ./frontend"
             "Frontend build failed" ;;
     Write_Host "Pushing frontend image..." ;;
     checked "docker push kangarooreg.azurecr.io/frontend-app:latest"
             "Frontend push failed" ;;
     Write_Host "Docker images built and pushed successfully!")
    (fun error =>
       Write_Error ("Failed to build/push Docker images: " ++ error) ;;
       exit 1).

(** Lines 210-218. *)
Definition manifests : list string :=
  [ "k8s/namespace.yaml";
    "k8s/configmap.yaml";
    "k8s/backend-deployment.yaml";
    "k8s/backend-service.yaml";
    "k8s/frontend-deployment.yaml";
    "k8s/frontend-service.yaml";
    "k8s/hpa.yaml" ].

(** Lines 221-227, the body of the [foreach]. *)
Definition apply_manifest (manifest : string) : M unit :=
  present <- Test_Path manifest ;;
  if present then
    Write_Host ("Applying " ++ manifest ++ "...") ;;
    checked ("kubectl apply -f " ++ manifest) ("Failed to apply " ++ manifest)
  else
    Write_Warning ("Manifest file " ++ manifest ++ " not found, skipping...").

(** Lines 205-245. *)
Definition apply_manifests : M unit :=
  Write_Host "Deploying to AKS..." ;;
  try_catch
    (foreach manifests apply_manifest ;;
     present <- Test_Path "k8s/ingress.yaml" ;;
     (if present then
        Write_Host "Applying ingress configuration..." ;;
        checked "kubectl apply -f k8s/ingress.yaml" "Failed to apply ingress" ;;
        Write_Host "Ingress applied successfully!"
      else
        Write_Warning
          "ingress.yaml not found. You'll need to create this file for proper routing.") ;;
     Write_Host "Kubernetes manifests applied successfully!")
    (fun error =>
       Write_Error ("Failed to apply Kubernetes manifests: " ++ error) ;;
       exit 1).

(** Lines 250 and 251, the commands. *)
Definition wait_backend : string :=
  "kubectl wait --for=condition=available --timeout=300s deployment/backend-api -n microservice-demo".
Definition wait_frontend : string :=
  "kubectl wait --for=condition=available --timeout=300s deployment/frontend-app -n microservice-demo".

(** Lines 247-256. *)
Definition wait_for_deployments : M unit :=
  Write_Host "Waiting for deployments to be ready..." ;;
  try_catch
    (invoke wait_backend ;;
     invoke wait_frontend ;;
     Write_Host "Deployments are ready!")
    (fun _ =>
       Write_Warning "Timeout waiting for deployments. Check status manually.").

Definition maxAttempts : nat := 30.

(** Line 269, the command. *)
Definition get_ingress_ip : string :=
  "kubectl get ingress microservice-ingress -n microservice-demo -o jsonpath={.status.loadBalancer.ingress[0].ip} --ignore-not-found=true".

(** Line 270, the condition:
    [$ingressInfo -and $ingressInfo -ne "<no value>"]. *)
Definition has_address (ingressInfo : string) : bool :=
  truthy ingressInfo && ne ingressInfo "<no value>".

(** Lines 268-277: one query.  [Some ip] is [$ingressIP = $ingressInfo]
    followed by [break]; the [catch] ignores the error. *)
Definition query_ingress : M (option string) :=
  try_catch
    (ingressInfo <- invoke get_ingress_ip ;;
     if has_address ingressInfo
     then ret (Some ingressInfo)
     else ret None)
    (fun _ => ret None).

(** Lines 264-280: the [while].  [fuel] bounds the unfolding; the loop
    itself stops on its condition. *)
Fixpoint poll_ingress (fuel attempt : nat) (ingressIP : string) : M string :=
  match fuel with
  | 0 => ret ingressIP
  | S fuel' =>
      if Nat.ltb attempt maxAttempts && negb (truthy ingressIP) then
        Write_Host ("Attempt " ++ decimal (S attempt) ++ " of "
                    ++ decimal maxAttempts ++ "...") ;;
        found <- query_ingress ;;
        match found with
        | Some ip => ret ip
        | None => Start_Sleep 10 ;; poll_ingress fuel' (S attempt) ingressIP
        end
      else ret ingressIP
  end.

(** Lines 258-280. *)
Definition wait_for_ingress : M string :=
  Write_Host "Waiting for Ingress to get external IP..." ;;
  poll_ingress maxAttempts 0 "".

Definition nl : string := String (Ascii.ascii_of_nat 10) EmptyString.

(** Lines 282-290. *)
Definition show_status : M unit :=
  Write_Host (nl ++ "Deployment completed successfully!") ;;
  Write_Host "===========================================" ;;
  Write_Host (nl ++ "Current status:") ;;
  invoke "kubectl get pods -n microservice-demo" ;;
  invoke "kubectl get svc -n microservice-demo" ;;
  invoke "kubectl get ingress -n microservice-demo" ;;
  ret tt.

(** Lines 98-290: the script up to the last external command; what follows
    only prints. *)
Definition deploy_ps1 : M string :=
  check_prerequisites ;;
  verify_azure ;;
  verify_kubectl ;;
  ensure_ingress_controller ;;
  build_and_push ;;
  apply_manifests ;;
  wait_for_deployments ;;
  ingressIP <- wait_for_ingress ;;
  show_status ;;
  ret ingressIP.

Definition start : state := mkState [] [] 0 0.

(** The last command the script started failed: it threw, or it returned
    a status other than 0. *)
Definition failed (r : native_result) : Prop :=
  match r with
  | Threw _ => True
  | Returned status _ => status <> 0%Z
  end.

Definition last_failed (h : host) (st : state) : Prop :=
  exists before line,
    started st = (before ++ [line])%list /\
    failed (native h (List.length before) line).

(** The command lines the script checks the status of. *)
Definition is_checked (line : string) : bool :=
  String.prefix "docker " line || String.prefix "kubectl apply " line.

(** A host whose commands never throw and return the status
    [status_of] gives them. *)
Definition quiet_host (status_of : string -> Z) : host :=
  mkHost (fun _ => true) (fun _ line => Returned (status_of line) "")
         (fun _ => true).

(** An answer to the ingress query that does not end the polling: the
    command threw, or what it printed is no address. *)
Definition no_address (r : native_result) : Prop :=
  match r with
  | Threw _ => True
  | Returned _ output => has_address output = false
  end.

(** The three tools of lines 112-125 are there. *)
Definition tools_present (h : host) : Prop :=
  has_command h "docker" = true /\
  has_command h "kubectl" = true /\
  has_command h "az" = true.

(** [LASTEXITCODE] is only ever left non-zero by a command that failed
    and is still the last one started. *)
Definition code_tracks_failure (h : host) (st : state) : Prop :=
  LASTEXITCODE st <> 0%Z -> last_failed h st.

(** Every checked command line started so far returned 0. *)
Definition checked_ok (h : host) (st : state) : Prop :=
  forall n line,
    nth_error (started st) n = Some line ->
    is_checked line = true ->
    exists output, native h n line = Returned 0 output.

(** A statement started in a state that satisfies [P] ends normally in a
    state that satisfies [Q], with a thrown error in one that satisfies [T],
    or with [exit] in one that satisfies [X]. *)
Definition triple {A : Type} (h : host) (P : state -> Prop) (c : M A)
           (Q : A -> state -> Prop) (T : state -> Prop)
           (X : Z -> state -> Prop) : Prop :=
  forall st, P st ->
    match c h st with
    | (Normal a, st') => Q a st'
    | (Thrown _, st') => T st'
    | (Exit status, st') => X status st'
    end.

(** A property of the state that does not depend on what was printed or
    on the time slept. *)
Definition about_commands (P : state -> Prop) : Prop :=
  forall st st',
    started st = started st' -> LASTEXITCODE st = LASTEXITCODE st' ->
    P st -> P st'.

End Ps1.

(** ** Sample data for the examples *)

Definition ada : User := mkUser 1 "Ada" "ada@x.com".
Definition bob : User := mkUser 2 "Bob" "bob@x.com".

(** The page after the first list-fetch delivered [ada] and the form was
    filled in for Bob. *)
Definition bob_typed : list event :=
  [Mount; GetDone 0 (Fulfilled [ada]); ChangeName "Bob";
   ChangeEmail "bob@x.com"].

(** * Properties of the client *)

(** ** What the two bodies do, segment by segment *)

Lemma exec_fetchUsers env par w :
  exec par (fetchUsers env) w =
  park par (OnGet (API_BASE_URL env ++ "/users") (fetchUsers_k env))
       (with_view (setLoading true) w).
Proof. reflexivity. Qed.

Lemma exec_createUser env par d w :
  exec par (createUser env d) w =
  park par (OnPost (API_BASE_URL env ++ "/users") d (createUser_k env)) w.
Proof. reflexivity. Qed.

Lemma exec_fetchUsers_fulfilled env par data w :
  exec par (fetchUsers_k env (Fulfilled data)) w =
  with_view (setLoading false) (with_view (setUsers data) w).
Proof. reflexivity. Qed.

Lemma exec_fetchUsers_rejected env par error w :
  exec par (fetchUsers_k env (Rejected error)) w =
  with_view (setLoading false)
            (console_error "Error fetching users:" error w).
Proof. reflexivity. Qed.

Lemma exec_createUser_fulfilled env par u w :
  exec par (createUser_k env (Fulfilled u)) w =
  exec par (fetchUsers env) (with_view (setNewUser (mkDraft "" "")) w).
Proof. reflexivity. Qed.

Lemma exec_createUser_rejected env par error w :
  exec par (createUser_k env (Rejected error)) w =
  console_error "Error creating user:" error w.
Proof. reflexivity. Qed.

(** ** Only the two bodies are ever parked *)

Lemma well_parked_settle env r w :
  well_parked env w -> well_parked env (settle r w).
Proof.
  intros Hw p Hin. apply Hw.
  simpl in Hin. apply filter_In in Hin. tauto.
Qed.

Lemma find_pending_some r l p :
  find_pending r l = Some p -> In p l /\ rid p = r.
Proof.
  unfold find_pending. intros H. apply find_some in H.
  destruct H as [Hin Heq]. apply Nat.eqb_eq in Heq. auto.
Qed.

(** A settled GET resumes [fetchUsers]. *)
Lemma step_GetDone env w r o w' :
  well_parked env w ->
  step env w (GetDone r o) = Some w' ->
  (exists p, In p (inflight w) /\ rid p = r /\ is_get p = true) /\
  w' = exec (Some r) (fetchUsers_k env o) (settle r w).
Proof.
  intros Hw H. unfold step in H.
  destruct (find_pending r (inflight w)) as [p|] eqn:Hf; [|discriminate].
  destruct (find_pending_some _ _ _ Hf) as [Hin Hr].
  destruct p as [r0 par0 s]. simpl in Hr. subst r0.
  destruct s as [url k|url body k]; [|discriminate].
  inversion H; subst w'; clear H.
  destruct (Hw _ Hin) as [Hs|[d Hs]]; simpl in Hs; [|discriminate].
  inversion Hs; subst url k. split; [|reflexivity].
  eexists. split; [exact Hin|]. split; reflexivity.
Qed.

(** A settled POST resumes [createUser]. *)
Lemma step_PostDone env w r o w' :
  well_parked env w ->
  step env w (PostDone r o) = Some w' ->
  (exists p, In p (inflight w) /\ rid p = r /\ is_get p = false) /\
  w' = exec (Some r) (createUser_k env o) (settle r w).
Proof.
  intros Hw H. unfold step in H.
  destruct (find_pending r (inflight w)) as [p|] eqn:Hf; [|discriminate].
  destruct (find_pending_some _ _ _ Hf) as [Hin Hr].
  destruct p as [r0 par0 s]. simpl in Hr. subst r0.
  destruct s as [url k|url body k]; [discriminate|].
  inversion H; subst w'; clear H.
  destruct (Hw _ Hin) as [Hs|[d Hs]]; simpl in Hs; [discriminate|].
  inversion Hs; subst url body k. split; [|reflexivity].
  eexists. split; [exact Hin|]. split; reflexivity.
Qed.

Lemma well_parked_step env w e w' :
  well_parked env w -> step env w e = Some w' -> well_parked env w'.
Proof.
  intros Hw H. destruct e as [|v|v| |r o|r o].
  - simpl in H. destruct (mounted w); [discriminate|].
    inversion H; subst w'; clear H.
    intros p [Hp|Hp]; [subst p; left; reflexivity|apply Hw; exact Hp].
  - simpl in H. destruct (mounted w); [|discriminate].
    inversion H; subst w'; exact Hw.
  - simpl in H. destruct (mounted w); [|discriminate].
    inversion H; subst w'; exact Hw.
  - simpl in H. destruct (mounted w); [|discriminate].
    inversion H; subst w'; clear H.
    intros p [Hp|Hp]; [subst p; right; eexists; reflexivity|apply Hw; exact Hp].
  - destruct (step_GetDone _ _ _ _ _ Hw H) as [_ ->].
    pose proof (well_parked_settle env r w Hw) as Hs.
    destruct o; exact Hs.
  - destruct (step_PostDone _ _ _ _ _ Hw H) as [_ ->].
    pose proof (well_parked_settle env r w Hw) as Hs.
    destruct o as [u|error]; [|exact Hs].
    intros p [Hp|Hp]; [subst p; left; reflexivity|apply Hs; exact Hp].
Qed.

Lemma well_parked_run env tr : forall w w',
  well_parked env w -> run env w tr = Some w' -> well_parked env w'.
Proof.
  induction tr as [|e tr IH]; intros w w' Hw H; simpl in H.
  - inversion H; subst; exact Hw.
  - destruct (step env w e) as [w1|] eqn:Hs; [|discriminate].
    eapply IH; [|exact H]. eapply well_parked_step; eassumption.
Qed.

Lemma well_parked_init env : well_parked env init.
Proof. intros p []. Qed.

Lemma reachable_well_parked env tr w :
  run env init tr = Some w -> well_parked env w.
Proof. apply well_parked_run, well_parked_init. Qed.

(** ** Request numbers and causality *)

Lemma sequenced_same w1 w2 :
  inflight w1 = inflight w2 -> next_rid w1 = next_rid w2 ->
  sequenced w1 -> sequenced w2.
Proof.
  unfold sequenced. intros Hi Hn H. rewrite <- Hi, <- Hn. exact H.
Qed.

Lemma settle_In r w q :
  In q (inflight (settle r w)) <-> In q (inflight w) /\ rid q <> r.
Proof.
  simpl. rewrite filter_In, negb_true_iff, Nat.eqb_neq. tauto.
Qed.

Lemma sequenced_settle r w : sequenced w -> sequenced (settle r w).
Proof.
  intros H p Hp. apply settle_In in Hp. destruct Hp as [Hp _].
  destruct (H p Hp) as [Hlt Hpar]. split; [exact Hlt|].
  intros k Hk. destruct (Hpar k Hk) as [Hk1 Hk2]. split; [exact Hk1|].
  intros q Hq. apply settle_In in Hq. apply Hk2. tauto.
Qed.

Lemma sequenced_park par s w :
  sequenced w ->
  (forall k, par = Some k ->
     k < next_rid w /\ forall q, In q (inflight w) -> rid q <> k) ->
  sequenced (park par s w).
Proof.
  intros H Hpar p [Hp|Hp].
  - subst p. simpl. split; [lia|]. intros k Hk.
    destruct (Hpar k Hk) as [Hk1 Hk2]. split; [lia|].
    intros q [Hq|Hq]; [subst q; simpl; lia|apply Hk2; exact Hq].
  - destruct (H p Hp) as [Hlt Hp']. simpl. split; [lia|].
    intros k Hk. destruct (Hp' k Hk) as [Hk1 Hk2]. split; [lia|].
    intros q [Hq|Hq]; [subst q; simpl; lia|apply Hk2; exact Hq].
Qed.

Lemma sequenced_step env w e w' :
  well_parked env w -> sequenced w ->
  step env w e = Some w' -> sequenced w'.
Proof.
  intros Hw Hs H. destruct e as [|v|v| |r o|r o].
  - simpl in H. destruct (mounted w); [discriminate|].
    inversion H; subst w'; clear H.
    apply (sequenced_park None); [|discriminate].
    eapply sequenced_same; [| |exact Hs]; reflexivity.
  - simpl in H. destruct (mounted w); [|discriminate].
    inversion H; subst w'. eapply sequenced_same; [| |exact Hs]; reflexivity.
  - simpl in H. destruct (mounted w); [|discriminate].
    inversion H; subst w'. eapply sequenced_same; [| |exact Hs]; reflexivity.
  - simpl in H. destruct (mounted w); [|discriminate].
    inversion H; subst w'; clear H.
    apply (sequenced_park None); [exact Hs|discriminate].
  - destruct (step_GetDone _ _ _ _ _ Hw H) as [_ ->].
    pose proof (sequenced_settle r w Hs) as Hs'.
    destruct o; (eapply sequenced_same; [| |exact Hs']; reflexivity).
  - destruct (step_PostDone _ _ _ _ _ Hw H) as [[p [Hin [Hr _]]] ->].
    pose proof (sequenced_settle r w Hs) as Hs'.
    destruct o as [u|error];
      [|eapply sequenced_same; [| |exact Hs']; reflexivity].
    rewrite exec_createUser_fulfilled, exec_fetchUsers.
    apply sequenced_park.
    + eapply sequenced_same; [| |exact Hs']; reflexivity.
    + intros k Hk. inversion Hk; subst k. simpl. split.
      * rewrite <- Hr. exact (proj1 (Hs p Hin)).
      * intros q Hq. apply filter_In in Hq. destruct Hq as [_ Hq].
        apply negb_true_iff, Nat.eqb_neq in Hq. exact Hq.
Qed.

Lemma sequenced_run env tr : forall w w',
  well_parked env w -> sequenced w ->
  run env w tr = Some w' -> sequenced w'.
Proof.
  induction tr as [|e tr IH]; intros w w' Hw Hs H; simpl in H.
  - inversion H; subst; exact Hs.
  - destruct (step env w e) as [w1|] eqn:Hst; [|discriminate].
    eapply IH; [| |exact H].
    + eapply well_parked_step; eassumption.
    + eapply sequenced_step; eassumption.
Qed.

Lemma reachable_sequenced env tr w :
  run env init tr = Some w -> sequenced w.
Proof.
  apply sequenced_run; [apply well_parked_init|intros p []].
Qed.

(** Settling a request that is not in flight removes nothing. *)
Lemma filter_fresh (n : nat) (l : list pending) :
  (forall p, In p l -> rid p < n) ->
  filter (fun p => negb (Nat.eqb (rid p) n)) l = l.
Proof.
  induction l as [|a l IH]; intros H; simpl; [reflexivity|].
  assert (Ha : rid a < n) by (apply H; left; reflexivity).
  replace (Nat.eqb (rid a) n) with false
    by (symmetry; apply Nat.eqb_neq; lia).
  simpl. f_equal. apply IH. intros p Hp. apply H. right; exact Hp.
Qed.

(** ** The list-fetch *)

(** C1.  When a list-fetch of [fetchUsers] is answered with a list of
    records, the [users] cell afterwards holds that list as it is: same
    records, same order, same repetitions. *)
Theorem fetchUsers_success_stores_response env tr w r data w' :
  run env init tr = Some w ->
  step env w (GetDone r (Fulfilled data)) = Some w' ->
  users (view w') = data.
Proof.
  intros Hrun Hstep.
  destruct (step_GetDone _ _ _ _ _ (reachable_well_parked _ _ _ Hrun) Hstep)
    as [_ ->].
  rewrite exec_fetchUsers_fulfilled. reflexivity.
Qed.

Lemma fetchUsers_success_stores_response_witness :
  run None init [Mount] = Some (world_after None [Mount]) /\
  step None (world_after None [Mount]) (GetDone 0 (Fulfilled [ada; ada; bob]))
    = Some (world_after None [Mount; GetDone 0 (Fulfilled [ada; ada; bob])]) /\
  users (view (world_after None [Mount; GetDone 0 (Fulfilled [ada; ada; bob])]))
    = [ada; ada; bob].
Proof.
  split; [reflexivity|]. split; [reflexivity|].
  apply (fetchUsers_success_stores_response
           None [Mount] (world_after None [Mount]) 0 [ada; ada; bob]
           (world_after None [Mount; GetDone 0 (Fulfilled [ada; ada; bob])]));
    reflexivity.
Defined.

(** C4.  When a list-fetch of [fetchUsers] fails, the [users] and [newUser]
    cells keep their values, [loading] becomes [false], and the error goes
    to the console and nowhere else: the view has no cell for it, and no
    request is issued. *)
Theorem fetchUsers_failure_is_only_logged env tr w r error w' :
  run env init tr = Some w ->
  step env w (GetDone r (Rejected error)) = Some w' ->
  users (view w') = users (view w) /\
  newUser (view w') = newUser (view w) /\
  loading (view w') = false /\
  console w' = (console w ++ [("Error fetching users:", error)])%list /\
  next_rid w' = next_rid w.
Proof.
  intros Hrun Hstep.
  destruct (step_GetDone _ _ _ _ _ (reachable_well_parked _ _ _ Hrun) Hstep)
    as [_ ->].
  rewrite exec_fetchUsers_rejected. repeat split; reflexivity.
Qed.

Lemma fetchUsers_failure_is_only_logged_witness :
  let tr := (bob_typed ++ [Submit; PostDone 1 (Fulfilled tt)])%list in
  let w := world_after None tr in
  let w' := world_after None (tr ++ [GetDone 2 (Rejected "Network Error")]) in
  run None init tr = Some w /\
  step None w (GetDone 2 (Rejected "Network Error")) = Some w' /\
  users (view w') = [ada] /\
  newUser (view w') = newUser (view w) /\
  loading (view w') = false /\
  console w' = [("Error fetching users:", "Network Error")] /\
  next_rid w' = next_rid w.
Proof.
  split; [reflexivity|]. split; [reflexivity|].
  apply (fetchUsers_failure_is_only_logged
           None (bob_typed ++ [Submit; PostDone 1 (Fulfilled tt)])%list
           (world_after None (bob_typed ++ [Submit; PostDone 1 (Fulfilled tt)]))
           2 "Network Error"); reflexivity.
Defined.

(** ** The create call *)

(** The form handler parks [createUser] on its POST and touches nothing
    else. *)
Lemma step_Submit env w w' :
  step env w Submit = Some w' ->
  w' = park None
         (OnPost (API_BASE_URL env ++ "/users") (newUser (view w))
                 (createUser_k env)) w.
Proof.
  simpl. destruct (mounted w); [|discriminate].
  intros H; inversion H; reflexivity.
Qed.

(** A failed create, whenever it settles: the cells and the request counter
    are as they were, the POST is gone, the console has one more line. *)
Lemma createUser_rejected_step env tr w r error w' :
  run env init tr = Some w ->
  step env w (PostDone r (Rejected error)) = Some w' ->
  view w' = view w /\
  next_rid w' = next_rid w /\
  inflight w' = inflight (settle r w) /\
  console w' = (console w ++ [("Error creating user:", error)])%list.
Proof.
  intros Hrun Hstep.
  destruct (step_PostDone _ _ _ _ _ (reachable_well_parked _ _ _ Hrun) Hstep)
    as [_ ->].
  rewrite exec_createUser_rejected. repeat split; reflexivity.
Qed.

(** C5.  When the POST of [createUser] succeeds, the draft is reset to
    [{ name: '', email: '' }] and [fetchUsers] is called: the world
    afterwards is the one [fetchUsers] makes of the world with the reset
    draft, and its newest request is the GET of that call. *)
Theorem createUser_success_resets_draft_and_refetches env tr w r u w' :
  run env init tr = Some w ->
  step env w (PostDone r (Fulfilled u)) = Some w' ->
  newUser (view w') = mkDraft "" "" /\
  w' = exec (Some r) (fetchUsers env)
            (with_view (setNewUser (mkDraft "" "")) (settle r w)) /\
  inflight w' =
    mkPending (next_rid w) (Some r)
              (OnGet (API_BASE_URL env ++ "/users") (fetchUsers_k env))
    :: inflight (settle r w).
Proof.
  intros Hrun Hstep.
  destruct (step_PostDone _ _ _ _ _ (reachable_well_parked _ _ _ Hrun) Hstep)
    as [_ ->].
  rewrite exec_createUser_fulfilled. repeat split; reflexivity.
Qed.

Lemma createUser_success_resets_draft_and_refetches_witness :
  run None init (bob_typed ++ [Submit])
    = Some (world_after None (bob_typed ++ [Submit])) /\
  step None (world_after None (bob_typed ++ [Submit]))
       (PostDone 1 (Fulfilled tt))
    = Some (world_after None (bob_typed ++ [Submit; PostDone 1 (Fulfilled tt)])) /\
  newUser (view (world_after None
                   (bob_typed ++ [Submit; PostDone 1 (Fulfilled tt)])))
    = mkDraft "" "" /\
  map rid (inflight (world_after None
                       (bob_typed ++ [Submit; PostDone 1 (Fulfilled tt)])))
    = [2] /\
  map is_get (inflight (world_after None
                       (bob_typed ++ [Submit; PostDone 1 (Fulfilled tt)])))
    = [true].
Proof.
  split; [reflexivity|]. split; [reflexivity|].
  destruct (createUser_success_resets_draft_and_refetches
              None (bob_typed ++ [Submit])%list
              (world_after None (bob_typed ++ [Submit])) 1 tt
              (world_after None (bob_typed ++ [Submit; PostDone 1 (Fulfilled tt)]))
              eq_refl eq_refl) as [Hd [_ Hi]].
  split; [exact Hd|]. rewrite Hi. split; reflexivity.
Defined.

(** C9.  [createUser] has no [setLoading] of its own.  The submit and a
    rejected POST leave [loading] as it was; after a successful POST the
    world is what [fetchUsers] makes of a world whose [loading] is still the
    old one, so the flag moves only inside that call. *)
Theorem createUser_leaves_loading_to_fetchUsers env tr w :
  run env init tr = Some w ->
  (forall w', step env w Submit = Some w' ->
     loading (view w') = loading (view w)) /\
  (forall r error w', step env w (PostDone r (Rejected error)) = Some w' ->
     loading (view w') = loading (view w)) /\
  (forall r u w', step env w (PostDone r (Fulfilled u)) = Some w' ->
     loading (view (with_view (setNewUser (mkDraft "" "")) (settle r w)))
       = loading (view w) /\
     w' = exec (Some r) (fetchUsers env)
               (with_view (setNewUser (mkDraft "" "")) (settle r w))).
Proof.
  intros Hrun. split; [|split].
  - intros w' H. apply step_Submit in H. subst w'. reflexivity.
  - intros r error w' H.
    destruct (createUser_rejected_step _ _ _ _ _ _ Hrun H) as [Hv _].
    rewrite Hv. reflexivity.
  - intros r u w' H. split; [reflexivity|].
    destruct (step_PostDone _ _ _ _ _ (reachable_well_parked _ _ _ Hrun) H)
      as [_ ->].
    apply exec_createUser_fulfilled.
Qed.

Lemma createUser_leaves_loading_to_fetchUsers_witness :
  run None init (bob_typed ++ [Submit])
    = Some (world_after None (bob_typed ++ [Submit])) /\
  loading (view (world_after None (bob_typed ++ [Submit])))
    = loading (view (world_after None bob_typed)) /\
  loading (view (world_after None
                   (bob_typed ++ [Submit; PostDone 1 (Rejected "Network Error")])))
    = loading (view (world_after None (bob_typed ++ [Submit]))) /\
  world_after None (bob_typed ++ [Submit; PostDone 1 (Fulfilled tt)])
    = exec (Some 1) (fetchUsers None)
           (with_view (setNewUser (mkDraft "" ""))
                      (settle 1 (world_after None (bob_typed ++ [Submit])))).
Proof.
  split; [reflexivity|].
  destruct (createUser_leaves_loading_to_fetchUsers
              None bob_typed (world_after None bob_typed) eq_refl)
    as [Hsub _].
  destruct (createUser_leaves_loading_to_fetchUsers
              None (bob_typed ++ [Submit])%list
              (world_after None (bob_typed ++ [Submit])) eq_refl)
    as [_ [Hrej Hful]].
  split; [apply Hsub; reflexivity|].
  split; [apply (Hrej 1 "Network Error"); reflexivity|].
  apply (Hful 1 tt); reflexivity.
Defined.

(** ** The collection *)

(** The only event that writes the [users] cell is a GET that delivers. *)
Lemma step_users env w e w' :
  well_parked env w -> step env w e = Some w' ->
  users (view w') =
  match e with
  | GetDone _ (Fulfilled data) => data
  | _ => users (view w)
  end.
Proof.
  intros Hw H. destruct e as [|v|v| |r o|r o].
  - simpl in H. destruct (mounted w); [discriminate|].
    inversion H; reflexivity.
  - simpl in H. destruct (mounted w); [|discriminate].
    inversion H; reflexivity.
  - simpl in H. destruct (mounted w); [|discriminate].
    inversion H; reflexivity.
  - apply step_Submit in H. subst w'. reflexivity.
  - destruct (step_GetDone _ _ _ _ _ Hw H) as [_ ->].
    destruct o; reflexivity.
  - destruct (step_PostDone _ _ _ _ _ Hw H) as [_ ->].
    destruct o; reflexivity.
Qed.

Lemma users_follow_fetched env tr : forall w acc w',
  well_parked env w ->
  run env w tr = Some w' ->
  users (view w) = fetched_or_initial acc ->
  users (view w') = fetched_or_initial (fold_left fetched tr acc).
Proof.
  induction tr as [|e tr IH]; intros w acc w' Hw Hrun Hacc; simpl in *.
  - inversion Hrun; subst w'. exact Hacc.
  - destruct (step env w e) as [w1|] eqn:Hstep; [|discriminate].
    apply (IH w1); [eapply well_parked_step; eassumption|exact Hrun|].
    rewrite (step_users _ _ _ _ Hw Hstep).
    destruct e as [|v|v| |r o|r o]; try exact Hacc;
      destruct o; try exact Hacc; reflexivity.
Qed.

(** C2, as the code has it.  In every reachable state the [users] cell holds
    the data of the most recent list-fetch that delivered a response, and the
    initial empty list as long as none has.  No other event writes the cell:
    not the submit, not the settlement of the POST (either way), not typing
    in the form, not a failed list-fetch; a created record can only enter the
    cell with the response of a list-fetch. *)
Theorem users_is_last_delivered_fetch_or_initial env tr w :
  run env init tr = Some w ->
  users (view w) = fetched_or_initial (last_fetch_data tr) /\
  (forall e w', step env w e = Some w' ->
     (forall r data, e <> GetDone r (Fulfilled data)) ->
     users (view w') = users (view w)).
Proof.
  intros Hrun. split.
  - apply (users_follow_fetched env tr init None w);
      [apply well_parked_init|exact Hrun|reflexivity].
  - intros e w' Hstep Hne.
    rewrite (step_users _ _ _ _ (reachable_well_parked _ _ _ Hrun) Hstep).
    destruct e as [|v|v| |r o|r o]; try reflexivity.
    destruct o as [data|error]; [|reflexivity].
    exfalso. exact (Hne r data eq_refl).
Qed.

Lemma users_is_last_delivered_fetch_or_initial_witness :
  run None init (bob_typed ++ [Submit])
    = Some (world_after None (bob_typed ++ [Submit])) /\
  users (view (world_after None (bob_typed ++ [Submit]))) = [ada] /\
  users (view (world_after None (bob_typed ++ [Submit; PostDone 1 (Fulfilled tt)])))
    = [ada].
Proof.
  split; [reflexivity|].
  destruct (users_is_last_delivered_fetch_or_initial
              None (bob_typed ++ [Submit])%list
              (world_after None (bob_typed ++ [Submit])) eq_refl)
    as [Hlast Hframe].
  split; [exact Hlast|].
  rewrite (Hframe (PostDone 1 (Fulfilled tt))
                  (world_after None
                     (bob_typed ++ [Submit; PostDone 1 (Fulfilled tt)]))
                  eq_refl);
    [exact Hlast|discriminate].
Defined.

(** C2, as the sentence has it, fails.  After the page is mounted and its
    first list-fetch is rejected, [loading] is [false], so the grid is
    displayed, and it displays the initial empty list; yet no list-fetch has
    delivered anything, and the one list-fetch that has completed ended in an
    error.  What is displayed is not the result of a completed list-fetch. *)
Lemma displayed_collection_without_completed_fetch :
  ~ (forall tr w,
       run None init tr = Some w ->
       loading (view w) = false ->
       last_fetch_data tr = Some (users (view w))).
Proof.
  intros H.
  specialize (H [Mount; GetDone 0 (Rejected "Network Error")]
                (world_after None [Mount; GetDone 0 (Rejected "Network Error")])
                eq_refl eq_refl).
  discriminate H.
Qed.

(** ** Request numbers are unique *)

Lemma NoDup_map_filter {A B : Type} (f : A -> B) (g : A -> bool) (l : list A) :
  NoDup (map f l) -> NoDup (map f (filter g l)).
Proof.
  induction l as [|a l IH]; simpl; intros H; [constructor|].
  inversion H as [|x xs Hnotin Hnd]; subst.
  destruct (g a); simpl; [|apply IH; exact Hnd].
  constructor; [|apply IH; exact Hnd].
  intros Hin. apply Hnotin. apply in_map_iff in Hin.
  destruct Hin as [y [Hy Hyin]]. apply filter_In in Hyin.
  apply in_map_iff. exists y. tauto.
Qed.

Lemma NoDup_newest w par s (l : list pending) :
  sequenced w ->
  (forall p, In p l -> In p (inflight w)) ->
  NoDup (map rid l) ->
  NoDup (map rid (mkPending (next_rid w) par s :: l)).
Proof.
  intros Hs Hl Hnd. simpl. constructor; [|exact Hnd].
  intros Hin. apply in_map_iff in Hin. destruct Hin as [p [Hp Hpin]].
  pose proof (proj1 (Hs p (Hl p Hpin))). lia.
Qed.

Lemma unique_rids_step env w e w' :
  well_parked env w -> sequenced w ->
  NoDup (map rid (inflight w)) ->
  step env w e = Some w' ->
  NoDup (map rid (inflight w')).
Proof.
  intros Hw Hs Hnd H. destruct e as [|v|v| |r o|r o].
  - simpl in H. destruct (mounted w); [discriminate|].
    inversion H; subst w'; clear H.
    apply (NoDup_newest w); auto.
  - simpl in H. destruct (mounted w); [|discriminate].
    inversion H; subst w'. exact Hnd.
  - simpl in H. destruct (mounted w); [|discriminate].
    inversion H; subst w'. exact Hnd.
  - apply step_Submit in H. subst w'.
    apply (NoDup_newest w); auto.
  - destruct (step_GetDone _ _ _ _ _ Hw H) as [_ ->].
    destruct o; apply NoDup_map_filter; exact Hnd.
  - destruct (step_PostDone _ _ _ _ _ Hw H) as [_ ->].
    destruct o as [u|error]; [|apply NoDup_map_filter; exact Hnd].
    apply (NoDup_newest w);
      [exact Hs| |apply NoDup_map_filter; exact Hnd].
    intros p Hp. apply filter_In in Hp. tauto.
Qed.

Lemma unique_rids_same (l : list pending) p q :
  NoDup (map rid l) -> In p l -> In q l -> rid p = rid q -> p = q.
Proof.
  induction l as [|a l IH]; simpl; intros Hnd Hp Hq Heq; [contradiction|].
  inversion Hnd as [|x xs Hnotin Hnd']; subst.
  destruct Hp as [Hp|Hp], Hq as [Hq|Hq].
  - congruence.
  - subst a. exfalso. apply Hnotin. rewrite Heq. apply in_map. exact Hq.
  - subst a. exfalso. apply Hnotin. rewrite <- Heq. apply in_map. exact Hp.
  - apply IH; assumption.
Qed.

(** ** The loading flag *)

Lemma gets_settle_In r w g :
  In g (gets_in_flight (settle r w)) <->
  In g (gets_in_flight w) /\ rid g <> r.
Proof.
  unfold gets_in_flight. rewrite !filter_In, settle_In. tauto.
Qed.

Lemma gets_settle_other r w :
  (forall g, In g (gets_in_flight w) -> rid g <> r) ->
  gets_in_flight (settle r w) = gets_in_flight w.
Proof.
  unfold gets_in_flight, settle; simpl.
  induction (inflight w) as [|a l IH]; simpl; intros H; [reflexivity|].
  destruct (is_get a) eqn:Ha.
  - assert (Hne : rid a <> r) by (apply H; left; reflexivity).
    apply Nat.eqb_neq in Hne. rewrite Hne. simpl. rewrite Ha.
    f_equal. apply IH. intros g Hg. apply H. right. exact Hg.
  - destruct (negb (Nat.eqb (rid a) r)); simpl; rewrite ?Ha; apply IH; exact H.
Qed.








(** ** Order of the two requests of a create *)

(** C7.  In every reachable state, a request that was issued by the
    settlement of request [rid p] is never in flight together with [p]: the
    list-fetch that [createUser] starts and the POST of that [createUser] do
    not overlap.  And a list-fetch is only ever started by the mount effect
    or by the event that fulfils a POST: that POST was in flight before the
    event and is not afterwards, and the new GET names it as its parent.
    The submit itself and a rejected POST start no list-fetch. *)
Theorem create_then_fetch_are_sequential env tr w :
  run env init tr = Some w ->
  (forall p q, In p (inflight w) -> In q (inflight w) ->
     parent q = Some (rid p) -> False) /\
  (forall e w' q,
     step env w e = Some w' ->
     In q (inflight w') -> is_get q = true -> next_rid w <= rid q ->
     (e = Mount /\ parent q = None) \/
     (exists r u,
        e = PostDone r (Fulfilled u) /\ parent q = Some r /\
        (exists p, In p (inflight w) /\ rid p = r /\ is_get p = false) /\
        (forall p', In p' (inflight w') -> rid p' <> r))).
Proof.
  intros Hrun.
  pose proof (reachable_well_parked _ _ _ Hrun) as Hw.
  pose proof (reachable_sequenced _ _ _ Hrun) as Hs.
  split.
  - intros p q Hp Hq Hpar.
    destruct (Hs q Hq) as [_ Hk]. destruct (Hk _ Hpar) as [_ Hno].
    exact (Hno p Hp eq_refl).
  - intros e w' q Hstep Hq Hget Hnew.
    assert (Hold : In q (inflight w) -> False).
    { intros Hin. pose proof (proj1 (Hs q Hin)). lia. }
    destruct e as [|v|v| |r o|r o].
    + left. split; [reflexivity|].
      simpl in Hstep. destruct (mounted w); [discriminate|].
      inversion Hstep; subst w'; clear Hstep.
      destruct Hq as [Hq|Hq]; [subst q; reflexivity|contradiction].
    + simpl in Hstep. destruct (mounted w); [|discriminate].
      inversion Hstep; subst w'. contradiction.
    + simpl in Hstep. destruct (mounted w); [|discriminate].
      inversion Hstep; subst w'. contradiction.
    + apply step_Submit in Hstep. subst w'.
      destruct Hq as [Hq|Hq]; [subst q; discriminate|contradiction].
    + destruct (step_GetDone _ _ _ _ _ Hw Hstep) as [_ ->].
      assert (Hin : In q (inflight (settle r w))) by (destruct o; exact Hq).
      apply settle_In in Hin. tauto.
    + destruct (step_PostDone _ _ _ _ _ Hw Hstep) as [[p [Hp [Hr Hg]]] ->].
      destruct o as [u|error].
      * right. exists r, u. split; [reflexivity|].
        rewrite exec_createUser_fulfilled, exec_fetchUsers in Hq |- *.
        destruct Hq as [Hq|Hq];
          [|change (In q (inflight (settle r w))) in Hq;
            apply settle_In in Hq; tauto].
        subst q. split; [reflexivity|].
        split; [exists p; auto|].
        intros p' [Hp'|Hp'].
        -- subst p'. simpl. pose proof (proj1 (Hs p Hp)). lia.
        -- change (In p' (inflight (settle r w))) in Hp'.
           apply settle_In in Hp'. tauto.
      * rewrite exec_createUser_rejected in Hq.
        change (In q (inflight (settle r w))) in Hq.
        apply settle_In in Hq. tauto.
Qed.

Lemma create_then_fetch_are_sequential_witness :
  run None init (bob_typed ++ [Submit])
    = Some (world_after None (bob_typed ++ [Submit])) /\
  step None (world_after None (bob_typed ++ [Submit]))
       (PostDone 1 (Fulfilled tt))
    = Some (world_after None (bob_typed ++ [Submit; PostDone 1 (Fulfilled tt)])) /\
  map rid (inflight (world_after None (bob_typed ++ [Submit]))) = [1] /\
  map rid (inflight (world_after None
                       (bob_typed ++ [Submit; PostDone 1 (Fulfilled tt)])))
    = [2] /\
  (forall q,
     In q (inflight (world_after None
                       (bob_typed ++ [Submit; PostDone 1 (Fulfilled tt)]))) ->
     is_get q = true -> 2 <= rid q ->
     parent q = Some 1).
Proof.
  split; [reflexivity|]. split; [reflexivity|].
  split; [reflexivity|]. split; [reflexivity|].
  intros q Hq Hget Hnew.
  destruct (create_then_fetch_are_sequential
              None (bob_typed ++ [Submit])%list
              (world_after None (bob_typed ++ [Submit])) eq_refl)
    as [_ Horigin].
  destruct (Horigin (PostDone 1 (Fulfilled tt))
                    (world_after None
                       (bob_typed ++ [Submit; PostDone 1 (Fulfilled tt)]))
                    q eq_refl Hq Hget Hnew)
    as [[Hmount _]|[r [u [He [Hpar _]]]]].
  - discriminate Hmount.
  - inversion He; subst r. exact Hpar.
Defined.

(** ** The base URL *)

(** C10.  With the variable unset or set to the empty string, the base URL
    is the default [http://localhost:5000/api]; a non-empty value is used as
    it is.  So the value of the variable is used only when it is a non-empty
    string. *)
Theorem API_BASE_URL_falls_back_on_falsy env :
  (env = None \/ env = Some "" ->
     API_BASE_URL env = "http://localhost:5000/api") /\
  (forall s, env = Some s -> s <> "" -> API_BASE_URL env = s).
Proof.
  split.
  - intros [->| ->]; reflexivity.
  - intros s -> Hs. unfold API_BASE_URL, truthy.
    destruct (String.eqb s "") eqn:E; [|reflexivity].
    apply String.eqb_eq in E. contradiction.
Qed.

Lemma API_BASE_URL_falls_back_on_falsy_witness :
  API_BASE_URL None = "http://localhost:5000/api" /\
  API_BASE_URL (Some "") = "http://localhost:5000/api" /\
  API_BASE_URL (Some "http://backend-service:5000/api")
    = "http://backend-service:5000/api".
Proof.
  split; [|split].
  - apply (proj1 (API_BASE_URL_falls_back_on_falsy None)).
    left; reflexivity.
  - apply (proj1 (API_BASE_URL_falls_back_on_falsy (Some ""))).
    right; reflexivity.
  - apply (proj2 (API_BASE_URL_falls_back_on_falsy
                    (Some "http://backend-service:5000/api")));
      [reflexivity|discriminate].
Defined.

(** * The deploy scripts *)

(** Whatever the external commands return, [deploy.sh] starts every one of
    them and exits with the status of its last [echo]. *)
Lemma deploy_sh_runs_to_the_end status_of :
  DeploySh.exit_status (DeploySh.deploy_sh status_of) = 0%Z /\
  DeploySh.started (DeploySh.deploy_sh status_of)
    = DeploySh.externals DeploySh.script.
Proof. split; reflexivity. Qed.

(** C8 does not hold of [deploy.sh].  When the first image build fails with
    status 1 and every other command succeeds, the script still pushes,
    builds and applies everything after it, and exits with status 0. *)
Theorem deploy_sh_goes_on_after_failed_build :
  let backend_build :=
    "docker build -t your-registry/backend-api:latest ./backend" in
  let status_of := fun line =>
    if String.eqb line backend_build then 1%Z else 0%Z in
  status_of backend_build = 1%Z /\
  DeploySh.exit_status (DeploySh.deploy_sh status_of) = 0%Z /\
  DeploySh.started (DeploySh.deploy_sh status_of)
    = DeploySh.externals DeploySh.script /\
  List.length (DeploySh.started (DeploySh.deploy_sh status_of)) = 11.
Proof.
  intros backend_build status_of.
  split; [reflexivity|].
  destruct (deploy_sh_runs_to_the_end status_of) as [H0 Hall].
  split; [exact H0|]. split; [exact Hall|].
  rewrite Hall. reflexivity.
Qed.

(** * More about the client *)

(** ** Reachable worlds *)

Lemma run_app env t1 : forall t2 w,
  run env w (t1 ++ t2) =
  match run env w t1 with
  | Some w1 => run env w1 t2
  | None => None
  end.
Proof.
  induction t1 as [|e t1 IH]; intros t2 w; simpl; [reflexivity|].
  destruct (step env w e); [apply IH|reflexivity].
Qed.

Lemma unique_rids_run env tr : forall w w',
  well_parked env w -> sequenced w -> NoDup (map rid (inflight w)) ->
  run env w tr = Some w' -> NoDup (map rid (inflight w')).
Proof.
  induction tr as [|e tr IH]; intros w w' Hw Hs Hnd H; simpl in H.
  - inversion H; subst; exact Hnd.
  - destruct (step env w e) as [w1|] eqn:Hst; [|discriminate].
    apply (IH w1 w'); [| | |exact H].
    + eapply well_parked_step; eassumption.
    + eapply sequenced_step; eassumption.
    + eapply unique_rids_step; eassumption.
Qed.

Lemma reachable_unique_rids env tr w :
  run env init tr = Some w -> NoDup (map rid (inflight w)).
Proof.
  apply unique_rids_run;
    [apply well_parked_init|intros p []|constructor].
Qed.

(** Induction over the runs from the first render. *)
Lemma reachable_invariant env (P : World -> Prop) :
  P init ->
  (forall tr w e w',
     run env init tr = Some w -> P w -> step env w e = Some w' -> P w') ->
  forall tr w, run env init tr = Some w -> P w.
Proof.
  intros Hinit Hstep tr. induction tr as [|e tr IH] using rev_ind; intros w H.
  - inversion H; subst; exact Hinit.
  - rewrite run_app in H.
    destruct (run env init tr) as [w0|] eqn:Hrun; [|discriminate].
    simpl in H. destruct (step env w0 e) as [w1|] eqn:Hst; [|discriminate].
    inversion H; subst w1. eapply Hstep; eauto.
Qed.

Lemma find_pending_unique (l : list pending) p :
  NoDup (map rid l) -> In p l -> find_pending (rid p) l = Some p.
Proof.
  intros Hnd Hin. unfold find_pending.
  destruct (find (fun q => Nat.eqb (rid q) (rid p)) l) as [q|] eqn:Hf.
  - apply find_some in Hf. destruct Hf as [Hq Heq].
    apply Nat.eqb_eq in Heq. f_equal.
    apply (unique_rids_same l); assumption.
  - exfalso. pose proof (find_none _ _ Hf p Hin) as Hn. simpl in Hn.
    rewrite Nat.eqb_refl in Hn. discriminate.
Qed.

(** The answer to a list-fetch in flight is always taken. *)
Lemma get_in_flight_settles env tr w p o :
  run env init tr = Some w ->
  In p (gets_in_flight w) ->
  step env w (GetDone (rid p) o)
    = Some (exec (Some (rid p)) (fetchUsers_k env o) (settle (rid p) w)).
Proof.
  intros Hrun Hp. apply filter_In in Hp. destruct Hp as [Hin Hget].
  pose proof (find_pending_unique _ _ (reachable_unique_rids _ _ _ Hrun) Hin)
    as Hf.
  destruct (reachable_well_parked _ _ _ Hrun p Hin) as [Hs|[d Hs]];
    [|unfold is_get in Hget; rewrite Hs in Hget; discriminate].
  unfold step. rewrite Hf. destruct p as [r par s]. simpl in *. subst s.
  reflexivity.
Qed.

Lemma run_snoc env tr w e w' :
  run env init tr = Some w -> step env w e = Some w' ->
  run env init (tr ++ [e]) = Some w'.
Proof.
  intros Hrun Hstep. rewrite run_app, Hrun. simpl. rewrite Hstep. reflexivity.
Qed.

(** ** A create that fails, with anything in between *)






(** ** The loading flag when list-fetches overlap *)

(** X1.  In every run, with or without overlapping list-fetches: once the
    page is mounted, [loading] is [true] only while a list-fetch is in
    flight.  When every list-fetch has been answered the grid is shown. *)
Theorem loading_needs_a_fetch_in_flight env tr w :
  run env init tr = Some w ->
  mounted w = true ->
  gets_in_flight w = [] ->
  loading (view w) = false.
Proof.
  intros Hrun. revert tr w Hrun.
  apply (reachable_invariant env
           (fun w => mounted w = true -> gets_in_flight w = [] ->
                     loading (view w) = false)).
  - discriminate.
  - intros tr w e w' Hrun IH Hstep Hm Hg.
    pose proof (reachable_well_parked _ _ _ Hrun) as Hw.
    destruct e as [|v|v| |r o|r o].
    + simpl in Hstep. destruct (mounted w); [discriminate|].
      inversion Hstep; subst w'. discriminate Hg.
    + simpl in Hstep. destruct (mounted w) eqn:Hmw; [|discriminate].
      inversion Hstep; subst w'. apply IH; [reflexivity|exact Hg].
    + simpl in Hstep. destruct (mounted w) eqn:Hmw; [|discriminate].
      inversion Hstep; subst w'. apply IH; [reflexivity|exact Hg].
    + apply step_Submit in Hstep. subst w'. apply IH; assumption.
    + destruct (step_GetDone _ _ _ _ _ Hw Hstep) as [_ ->].
      destruct o; reflexivity.
    + destruct (step_PostDone _ _ _ _ _ Hw Hstep) as [[p [Hp [Hr Hpg]]] ->].
      destruct o as [u|error].
      * rewrite exec_createUser_fulfilled, exec_fetchUsers in Hg.
        discriminate Hg.
      * rewrite exec_createUser_rejected in Hm, Hg |- *.
        change (gets_in_flight (settle r w) = []) in Hg.
        change (mounted w = true) in Hm.
        change (loading (view w) = false).
        apply IH; [exact Hm|]. rewrite <- Hg. symmetry.
        apply gets_settle_other. intros g Hgin Heq.
        apply filter_In in Hgin. destruct Hgin as [Hgin Hgg].
        assert (g = p)
          by (apply (unique_rids_same (inflight w));
              [apply (reachable_unique_rids _ _ _ Hrun)| | |congruence];
              assumption).
        subst g. congruence.
Qed.

Lemma loading_needs_a_fetch_in_flight_witness :
  run None init [Mount; GetDone 0 (Rejected "timeout")]
    = Some (world_after None [Mount; GetDone 0 (Rejected "timeout")]) /\
  loading (view (world_after None [Mount; GetDone 0 (Rejected "timeout")]))
    = false.
Proof.
  split; [vm_compute; reflexivity|].
  apply (loading_needs_a_fetch_in_flight None
           [Mount; GetDone 0 (Rejected "timeout")]);
    vm_compute; reflexivity.
Defined.

(** X2.  When two list-fetches are in flight, the answer to either of them
    (a response or an error) sets [loading] to [false] although the other
    is still in flight. *)
Theorem first_answer_ends_loading_for_both env tr w p q o :
  run env init tr = Some w ->
  In p (gets_in_flight w) ->
  In q (gets_in_flight w) ->
  rid p <> rid q ->
  exists w',
    step env w (GetDone (rid p) o) = Some w' /\
    loading (view w') = false /\
    In q (gets_in_flight w').
Proof.
  intros Hrun Hp Hq Hne.
  eexists. split; [apply (get_in_flight_settles _ _ _ _ _ Hrun Hp)|].
  assert (Hin : In q (gets_in_flight (settle (rid p) w)))
    by (apply gets_settle_In; split; [exact Hq|congruence]).
  destruct o; split; try reflexivity; exact Hin.
Qed.

Lemma first_answer_ends_loading_for_both_witness :
  map rid (gets_in_flight
             (world_after None [Mount; Submit; PostDone 1 (Fulfilled tt)]))
    = [2; 0] /\
  exists w',
    step None (world_after None [Mount; Submit; PostDone 1 (Fulfilled tt)])
         (GetDone 0 (Fulfilled [ada])) = Some w' /\
    loading (view w') = false /\
    In (mkPending 2 (Some 1)
          (OnGet (API_BASE_URL None ++ "/users") (fetchUsers_k None)))
       (gets_in_flight w').
Proof.
  split; [vm_compute; reflexivity|].
  apply (first_answer_ends_loading_for_both
           None [Mount; Submit; PostDone 1 (Fulfilled tt)]
           (world_after None [Mount; Submit; PostDone 1 (Fulfilled tt)])
           (mkPending 0 None
              (OnGet (API_BASE_URL None ++ "/users") (fetchUsers_k None)))
           (mkPending 2 (Some 1)
              (OnGet (API_BASE_URL None ++ "/users") (fetchUsers_k None)))
           (Fulfilled [ada])).
  - vm_compute; reflexivity.
  - right; left; vm_compute; reflexivity.
  - left; vm_compute; reflexivity.
  - discriminate.
Defined.

Lemma answered_in_turn env tr w p q d1 d2 :
  run env init tr = Some w ->
  In p (gets_in_flight w) ->
  In q (gets_in_flight w) ->
  rid p <> rid q ->
  exists w',
    run env w [GetDone (rid p) (Fulfilled d1); GetDone (rid q) (Fulfilled d2)]
      = Some w' /\
    users (view w') = d2.
Proof.
  intros Hrun Hp Hq Hne.
  pose proof (get_in_flight_settles env tr w p (Fulfilled d1) Hrun Hp) as Hs1.
  assert (Hq1 : In q (gets_in_flight
                        (exec (Some (rid p)) (fetchUsers_k env (Fulfilled d1))
                              (settle (rid p) w)))).
  { change (In q (gets_in_flight (settle (rid p) w))).
    apply gets_settle_In. split; [exact Hq|congruence]. }
  pose proof (run_snoc _ _ _ _ _ Hrun Hs1) as Hrun1.
  pose proof (get_in_flight_settles env _ _ q (Fulfilled d2) Hrun1 Hq1) as Hs2.
  eexists. split.
  - cbn [run]. rewrite Hs1, Hs2. reflexivity.
  - reflexivity.
Qed.

(** X3.  When two list-fetches are in flight and both deliver, the
    collection is the data of the one answered last, whichever of the two
    was issued first. *)
Theorem last_answer_wins env tr w p q d1 d2 :
  run env init tr = Some w ->
  In p (gets_in_flight w) ->
  In q (gets_in_flight w) ->
  rid p <> rid q ->
  (exists w',
     run env w [GetDone (rid p) (Fulfilled d1); GetDone (rid q) (Fulfilled d2)]
       = Some w' /\
     users (view w') = d2) /\
  (exists w',
     run env w [GetDone (rid q) (Fulfilled d2); GetDone (rid p) (Fulfilled d1)]
       = Some w' /\
     users (view w') = d1).
Proof.
  intros Hrun Hp Hq Hne. split.
  - apply (answered_in_turn env tr); assumption.
  - apply (answered_in_turn env tr); auto.
Qed.

Lemma last_answer_wins_witness :
  (exists w',
     run None (world_after None [Mount; Submit; PostDone 1 (Fulfilled tt)])
         [GetDone 0 (Fulfilled [ada]); GetDone 2 (Fulfilled [ada; bob])]
       = Some w' /\
     users (view w') = [ada; bob]) /\
  (exists w',
     run None (world_after None [Mount; Submit; PostDone 1 (Fulfilled tt)])
         [GetDone 2 (Fulfilled [ada; bob]); GetDone 0 (Fulfilled [ada])]
       = Some w' /\
     users (view w') = [ada]).
Proof.
  apply (last_answer_wins
           None [Mount; Submit; PostDone 1 (Fulfilled tt)]
           (world_after None [Mount; Submit; PostDone 1 (Fulfilled tt)])
           (mkPending 0 None
              (OnGet (API_BASE_URL None ++ "/users") (fetchUsers_k None)))
           (mkPending 2 (Some 1)
              (OnGet (API_BASE_URL None ++ "/users") (fetchUsers_k None)))
           [ada] [ada; bob]).
  - vm_compute; reflexivity.
  - right; left; vm_compute; reflexivity.
  - left; vm_compute; reflexivity.
  - discriminate.
Defined.

(** ** Requests *)

(** X4.  Every request the page has in flight, GET or POST, was sent to
    [API_BASE_URL + "/users"]; the page talks to no other URL. *)
Theorem every_request_goes_to_users env tr w p :
  run env init tr = Some w ->
  In p (inflight w) ->
  url_of (susp p) = (API_BASE_URL env ++ "/users")%string.
Proof.
  intros Hrun Hp.
  destruct (reachable_well_parked _ _ _ Hrun p Hp) as [Hs|[d Hs]];
    rewrite Hs; reflexivity.
Qed.

Lemma every_request_goes_to_users_witness :
  map (fun p => url_of (susp p))
      (inflight (world_after (Some "http://backend-service:5000/api")
                   [Mount; Submit]))
    = ["http://backend-service:5000/api/users";
       "http://backend-service:5000/api/users"] /\
  url_of (OnPost "http://backend-service:5000/api/users" (mkDraft "" "")
                 (createUser_k (Some "http://backend-service:5000/api")))
    = (API_BASE_URL (Some "http://backend-service:5000/api") ++ "/users")%string.
Proof.
  split; [vm_compute; reflexivity|].
  apply (every_request_goes_to_users
           (Some "http://backend-service:5000/api") [Mount; Submit]
           (world_after (Some "http://backend-service:5000/api") [Mount; Submit])
           (mkPending 1 None
              (OnPost "http://backend-service:5000/api/users" (mkDraft "" "")
                      (createUser_k (Some "http://backend-service:5000/api"))))).
  - vm_compute; reflexivity.
  - left; vm_compute; reflexivity.
Defined.

Lemma typing_keeps_requests env evs : forall w w',
  Forall (fun e => typing e = true) evs ->
  run env w evs = Some w' ->
  inflight w' = inflight w /\ users (view w') = users (view w) /\
  loading (view w') = loading (view w).
Proof.
  induction evs as [|e evs IH]; intros w w' Hall Hrun; simpl in Hrun.
  - inversion Hrun; subst; auto.
  - inversion Hall as [|x xs He Hrest]; subst.
    destruct (step env w e) as [w1|] eqn:Hstep; [|discriminate].
    destruct (IH w1 w' Hrest Hrun) as [Hi [Hu Hl]].
    rewrite Hi, Hu, Hl.
    destruct e as [|v|v| |r o|r o]; try discriminate He;
      simpl in Hstep; destruct (mounted w); try discriminate;
      inversion Hstep; subst w1; auto.
Qed.

(** X5.  The body of the POST is the draft as it was when the form was
    submitted: whatever is typed into the form while the POST is in flight,
    the request in flight still carries the submitted draft. *)
Theorem post_carries_the_submitted_draft env w w1 evs w2 :
  step env w Submit = Some w1 ->
  Forall (fun e => typing e = true) evs ->
  run env w1 evs = Some w2 ->
  In (mkPending (next_rid w) None
        (OnPost (API_BASE_URL env ++ "/users") (newUser (view w))
                (createUser_k env)))
     (inflight w2).
Proof.
  intros Hsub Hall Hrun.
  destruct (typing_keeps_requests env evs w1 w2 Hall Hrun) as [Hi _].
  rewrite Hi. apply step_Submit in Hsub. subst w1. left; reflexivity.
Qed.

Lemma post_carries_the_submitted_draft_witness :
  step None (world_after None [Mount; ChangeName "Bob"]) Submit
    = Some (world_after None [Mount; ChangeName "Bob"; Submit]) /\
  newUser (view (world_after None
                   [Mount; ChangeName "Bob"; Submit; ChangeName "Robert"]))
    = mkDraft "Robert" "" /\
  In (mkPending (next_rid (world_after None [Mount; ChangeName "Bob"])) None
        (OnPost (API_BASE_URL None ++ "/users")
                (newUser (view (world_after None [Mount; ChangeName "Bob"])))
                (createUser_k None)))
     (inflight (world_after None
                  [Mount; ChangeName "Bob"; Submit; ChangeName "Robert"])).
Proof.
  split; [vm_compute; reflexivity|]. split; [vm_compute; reflexivity|].
  apply (post_carries_the_submitted_draft
           None (world_after None [Mount; ChangeName "Bob"])
           (world_after None [Mount; ChangeName "Bob"; Submit])
           [ChangeName "Robert"]
           (world_after None
              [Mount; ChangeName "Bob"; Submit; ChangeName "Robert"])).
  - vm_compute; reflexivity.
  - repeat constructor.
  - vm_compute; reflexivity.
Defined.

Lemma step_next_rid env w e w' :
  well_parked env w -> step env w e = Some w' ->
  next_rid w' = next_rid w + (if issues_request e then 1 else 0).
Proof.
  intros Hw H. destruct e as [|v|v| |r o|r o].
  - simpl in H. destruct (mounted w); [discriminate|].
    inversion H; subst w'. simpl. lia.
  - simpl in H. destruct (mounted w); [|discriminate].
    inversion H; subst w'. simpl. lia.
  - simpl in H. destruct (mounted w); [|discriminate].
    inversion H; subst w'. simpl. lia.
  - apply step_Submit in H. subst w'. simpl. lia.
  - destruct (step_GetDone _ _ _ _ _ Hw H) as [_ ->].
    destruct o; simpl; lia.
  - destruct (step_PostDone _ _ _ _ _ Hw H) as [_ ->].
    destruct o; simpl; lia.
Qed.

(** X6.  The number of HTTP requests the page has issued is the number of
    events that call axios: one for the mount, one for every submit, one for
    every create that succeeded.  A failed request is never retried and
    typing issues nothing. *)
Theorem requests_issued env tr w :
  run env init tr = Some w ->
  next_rid w = List.length (filter issues_request tr).
Proof.
  intros Hrun. revert w Hrun.
  induction tr as [|e tr IH] using rev_ind; intros w Hrun.
  - inversion Hrun; reflexivity.
  - rewrite run_app in Hrun.
    destruct (run env init tr) as [w0|] eqn:Hrun0; [|discriminate].
    simpl in Hrun. destruct (step env w0 e) as [w1|] eqn:Hst; [|discriminate].
    inversion Hrun; subst w1.
    rewrite (step_next_rid _ _ _ _ (reachable_well_parked _ _ _ Hrun0) Hst).
    rewrite (IH w0 eq_refl), filter_app, length_app. simpl.
    destruct (issues_request e); reflexivity.
Qed.

Lemma requests_issued_witness :
  run None init [Mount; Submit; PostDone 1 (Rejected "Network Error")]
    = Some (world_after None
              [Mount; Submit; PostDone 1 (Rejected "Network Error")]) /\
  next_rid (world_after None
              [Mount; Submit; PostDone 1 (Rejected "Network Error")])
    = 2.
Proof.
  split; [vm_compute; reflexivity|].
  refine (eq_trans
            (requests_issued None
               [Mount; Submit; PostDone 1 (Rejected "Network Error")]
               (world_after None
                  [Mount; Submit; PostDone 1 (Rejected "Network Error")]) _)
            _);
    vm_compute; reflexivity.
Defined.

Lemma step_console env w e w' :
  well_parked env w -> step env w e = Some w' ->
  console w' = (console w ++ logged e)%list.
Proof.
  intros Hw H. destruct e as [|v|v| |r o|r o].
  - simpl in H. destruct (mounted w); [discriminate|].
    inversion H; subst w'. simpl. rewrite app_nil_r. reflexivity.
  - simpl in H. destruct (mounted w); [|discriminate].
    inversion H; subst w'. simpl. rewrite app_nil_r. reflexivity.
  - simpl in H. destruct (mounted w); [|discriminate].
    inversion H; subst w'. simpl. rewrite app_nil_r. reflexivity.
  - apply step_Submit in H. subst w'. simpl. rewrite app_nil_r. reflexivity.
  - destruct (step_GetDone _ _ _ _ _ Hw H) as [_ ->].
    destruct o; simpl; rewrite ?app_nil_r; reflexivity.
  - destruct (step_PostDone _ _ _ _ _ Hw H) as [_ ->].
    destruct o; simpl; rewrite ?app_nil_r; reflexivity.
Qed.

(** X7.  The console holds exactly one line for every rejected request of
    the run, in the order of the rejections, with the prefix of the function
    that caught it; nothing else is ever logged. *)
Theorem console_lists_the_rejections env tr w :
  run env init tr = Some w ->
  console w = flat_map logged tr.
Proof.
  intros Hrun. revert w Hrun.
  induction tr as [|e tr IH] using rev_ind; intros w Hrun.
  - inversion Hrun; reflexivity.
  - rewrite run_app in Hrun.
    destruct (run env init tr) as [w0|] eqn:Hrun0; [|discriminate].
    simpl in Hrun. destruct (step env w0 e) as [w1|] eqn:Hst; [|discriminate].
    inversion Hrun; subst w1.
    rewrite (step_console _ _ _ _ (reachable_well_parked _ _ _ Hrun0) Hst).
    rewrite (IH w0 eq_refl), flat_map_app. simpl. rewrite app_nil_r.
    reflexivity.
Qed.

Lemma console_lists_the_rejections_witness :
  run None init [Mount; Submit; PostDone 1 (Rejected "Network Error")]
    = Some (world_after None
              [Mount; Submit; PostDone 1 (Rejected "Network Error")]) /\
  console (world_after None
              [Mount; Submit; PostDone 1 (Rejected "Network Error")])
    = [("Error creating user:", "Network Error")].
Proof.
  split; [vm_compute; reflexivity|].
  refine (eq_trans
            (console_lists_the_rejections None
               [Mount; Submit; PostDone 1 (Rejected "Network Error")]
               (world_after None
                  [Mount; Submit; PostDone 1 (Rejected "Network Error")]) _)
            _);
    vm_compute; reflexivity.
Defined.

(** X8.  [createUser] has no guard against a create that is already in
    flight: whenever the form is submitted twice in a row, the second
    submit issues a second POST with the same body as the first, and the
    cells are not touched. *)
Theorem double_submit_posts_twice env w w1 w2 :
  step env w Submit = Some w1 ->
  step env w1 Submit = Some w2 ->
  inflight w2 =
    mkPending (S (next_rid w)) None
      (OnPost (API_BASE_URL env ++ "/users") (newUser (view w))
              (createUser_k env))
    :: mkPending (next_rid w) None
         (OnPost (API_BASE_URL env ++ "/users") (newUser (view w))
                 (createUser_k env))
    :: inflight w /\
  view w2 = view w.
Proof.
  intros H1 H2. apply step_Submit in H1. subst w1.
  apply step_Submit in H2. subst w2. split; reflexivity.
Qed.

Lemma double_submit_posts_twice_witness :
  step None (world_after None bob_typed) Submit
    = Some (world_after None (bob_typed ++ [Submit])) /\
  step None (world_after None (bob_typed ++ [Submit])) Submit
    = Some (world_after None (bob_typed ++ [Submit; Submit])) /\
  newUser (view (world_after None bob_typed)) = mkDraft "Bob" "bob@x.com" /\
  inflight (world_after None (bob_typed ++ [Submit; Submit])) =
    mkPending (S (next_rid (world_after None bob_typed))) None
      (OnPost (API_BASE_URL None ++ "/users")
              (newUser (view (world_after None bob_typed)))
              (createUser_k None))
    :: mkPending (next_rid (world_after None bob_typed)) None
         (OnPost (API_BASE_URL None ++ "/users")
                 (newUser (view (world_after None bob_typed)))
                 (createUser_k None))
    :: inflight (world_after None bob_typed) /\
  view (world_after None (bob_typed ++ [Submit; Submit]))
    = view (world_after None bob_typed).
Proof.
  split; [vm_compute; reflexivity|]. split; [vm_compute; reflexivity|].
  split; [vm_compute; reflexivity|].
  apply (double_submit_posts_twice None
           (world_after None bob_typed)
           (world_after None (bob_typed ++ [Submit]))
           (world_after None (bob_typed ++ [Submit; Submit])));
    vm_compute; reflexivity.
Defined.

(** X9.  The two [onChange] handlers write one field of the draft each and
    nothing else, so they commute: typing a name and an email in either
    order leaves the same world, with the draft holding both. *)
Theorem typing_fields_commute env w a b :
  mounted w = true ->
  exists w',
    run env w [ChangeName a; ChangeEmail b] = Some w' /\
    run env w [ChangeEmail b; ChangeName a] = Some w' /\
    newUser (view w') = mkDraft a b /\
    users (view w') = users (view w) /\
    loading (view w') = loading (view w) /\
    inflight w' = inflight w /\
    console w' = console w.
Proof.
  intros Hm. eexists. split; [|split].
  - simpl. rewrite Hm. simpl. rewrite Hm. reflexivity.
  - simpl. rewrite Hm. simpl. rewrite Hm. reflexivity.
  - repeat split; reflexivity.
Qed.

Lemma typing_fields_commute_witness :
  mounted (world_after None [Mount]) = true /\
  exists w',
    run None (world_after None [Mount]) [ChangeName "Bob"; ChangeEmail "bob@x.com"]
      = Some w' /\
    run None (world_after None [Mount]) [ChangeEmail "bob@x.com"; ChangeName "Bob"]
      = Some w' /\
    newUser (view w') = mkDraft "Bob" "bob@x.com" /\
    users (view w') = users (view (world_after None [Mount])) /\
    loading (view w') = loading (view (world_after None [Mount])) /\
    inflight w' = inflight (world_after None [Mount]) /\
    console w' = console (world_after None [Mount]).
Proof.
  split; [vm_compute; reflexivity|].
  apply (typing_fields_commute None (world_after None [Mount])).
  vm_compute; reflexivity.
Defined.

(** * The rendered page *)

Lemma select_Tag sel tag attrs children :
  Render.select sel (Render.Tag tag attrs children)
  = ((if sel (Render.Tag tag attrs children)
      then [Render.Tag tag attrs children] else [])
     ++ flat_map (Render.select sel) children)%list.
Proof. reflexivity. Qed.

Lemma select_Text sel s :
  Render.select sel (Render.Text s)
  = if sel (Render.Text s) then [Render.Text s] else [].
Proof. simpl. rewrite app_nil_r. reflexivity. Qed.

Ltac walk :=
  repeat (first [rewrite select_Tag | rewrite select_Text];
          try (simpl (Render.has_class _ _));
          try (simpl (Render.has_placeholder _ _));
          cbn [flat_map app]).

Lemma select_cards (l : list User) :
  flat_map (Render.select (Render.has_class "user-card"))
           (map Render.user_card l)
  = map Render.user_card l.
Proof.
  induction l as [|u l IH]; simpl; [reflexivity|].
  f_equal. exact IH.
Qed.

Lemma select_no_input ph (l : list User) :
  flat_map (Render.select (Render.has_placeholder ph))
           (map Render.user_card l)
  = [].
Proof.
  induction l as [|u l IH]; simpl; [reflexivity|exact IH].
Qed.

(** X10.  While [loading] is [true] the page shows no user card at all;
    otherwise it shows exactly one card per record of the collection, in the
    order of the collection, each with the record's id as key and its name
    and email as text. *)
Theorem cards_are_the_collection_unless_loading v :
  Render.select (Render.has_class "user-card") (Render.render v)
  = if loading v then [] else map Render.user_card (users v).
Proof.
  unfold Render.render. destruct (loading v); walk; [reflexivity|].
  rewrite select_cards, !app_nil_r. reflexivity.
Qed.

Lemma select_name_input v :
  Render.select (Render.has_placeholder "Name") (Render.render v)
  = [Render.Tag "input"
       [ Render.InputType "text"; Render.Placeholder "Name";
         Render.Value (name (newUser v)); Render.OnChange ChangeName;
         Render.Required ] []].
Proof.
  unfold Render.render. destruct (loading v); walk;
    rewrite ?select_no_input; reflexivity.
Qed.

Lemma select_email_input v :
  Render.select (Render.has_placeholder "Email") (Render.render v)
  = [Render.Tag "input"
       [ Render.InputType "email"; Render.Placeholder "Email";
         Render.Value (email (newUser v)); Render.OnChange ChangeEmail;
         Render.Required ] []].
Proof.
  unfold Render.render. destruct (loading v); walk;
    rewrite ?select_no_input; reflexivity.
Qed.

(** X11.  The two inputs are controlled by the draft.  Firing the
    [onChange] handler that the rendered Name input carries, with some text,
    is an enabled event of a mounted page, and the page rendered afterwards
    shows that text in the Name input and the old email in the Email input;
    the same holds with the two inputs exchanged. *)
Theorem inputs_show_what_was_typed env w s :
  mounted w = true ->
  (exists n handler w',
     Render.select (Render.has_placeholder "Name") (Render.render (view w)) = [n] /\
     Render.change_handler_of n = Some handler /\
     step env w (handler s) = Some w' /\
     map Render.value_of
         (Render.select (Render.has_placeholder "Name") (Render.render (view w')))
       = [Some s] /\
     map Render.value_of
         (Render.select (Render.has_placeholder "Email") (Render.render (view w')))
       = [Some (email (newUser (view w)))]) /\
  (exists n handler w',
     Render.select (Render.has_placeholder "Email") (Render.render (view w)) = [n] /\
     Render.change_handler_of n = Some handler /\
     step env w (handler s) = Some w' /\
     map Render.value_of
         (Render.select (Render.has_placeholder "Email") (Render.render (view w')))
       = [Some s] /\
     map Render.value_of
         (Render.select (Render.has_placeholder "Name") (Render.render (view w')))
       = [Some (name (newUser (view w)))]).
Proof.
  intros Hm. split.
  - do 3 eexists. split; [apply select_name_input|].
    split; [reflexivity|].
    split; [simpl; rewrite Hm; reflexivity|].
    rewrite select_name_input, select_email_input. split; reflexivity.
  - do 3 eexists. split; [apply select_email_input|].
    split; [reflexivity|].
    split; [simpl; rewrite Hm; reflexivity|].
    rewrite select_name_input, select_email_input. split; reflexivity.
Qed.

Lemma inputs_show_what_was_typed_witness :
  mounted (world_after None [Mount]) = true /\
  (exists n handler w',
     Render.select (Render.has_placeholder "Name")
                   (Render.render (view (world_after None [Mount]))) = [n] /\
     Render.change_handler_of n = Some handler /\
     step None (world_after None [Mount]) (handler "Bob") = Some w' /\
     map Render.value_of
         (Render.select (Render.has_placeholder "Name") (Render.render (view w')))
       = [Some "Bob"] /\
     map Render.value_of
         (Render.select (Render.has_placeholder "Email") (Render.render (view w')))
       = [Some (email (newUser (view (world_after None [Mount]))))]).
Proof.
  split; [vm_compute; reflexivity|].
  destruct (inputs_show_what_was_typed None (world_after None [Mount]) "Bob")
    as [Hname _]; [vm_compute; reflexivity|exact Hname].
Defined.

(** * deploy.ps1 *)

(** ** Rules for [Ps1.triple] *)

Lemma triple_ret {A : Type} h (P : Ps1.state -> Prop) (a : A) Q T X :
  (forall st, P st -> Q a st) ->
  Ps1.triple h P (Ps1.ret a) Q T X.
Proof. intros H st HP. simpl. auto. Qed.

Lemma triple_bind {A B : Type} h P (c : Ps1.M A) (k : A -> Ps1.M B) R Q T X :
  Ps1.triple h P c R T X ->
  (forall a, Ps1.triple h (R a) (k a) Q T X) ->
  Ps1.triple h P (Ps1.bind c k) Q T X.
Proof.
  intros Hc Hk st HP. unfold Ps1.bind. specialize (Hc st HP).
  destruct (c h st) as [[a|e|code] st']; [|exact Hc|exact Hc].
  exact (Hk a st' Hc).
Qed.

Lemma triple_try {A : Type} h P (body : Ps1.M A) handler Q T' T X :
  Ps1.triple h P body Q T' X ->
  (forall e, Ps1.triple h T' (handler e) Q T X) ->
  Ps1.triple h P (Ps1.try_catch body handler) Q T X.
Proof.
  intros Hb Hh st HP. unfold Ps1.try_catch. specialize (Hb st HP).
  destruct (body h st) as [[a|e|code] st']; [exact Hb| |exact Hb].
  exact (Hh e st' Hb).
Qed.

Lemma triple_weaken {A : Type} h (P P' : Ps1.state -> Prop) (c : Ps1.M A)
      (Q Q' : A -> Ps1.state -> Prop) (T T' : Ps1.state -> Prop)
      (X X' : Z -> Ps1.state -> Prop) :
  Ps1.triple h P c Q T X ->
  (forall st, P' st -> P st) ->
  (forall a st, Q a st -> Q' a st) ->
  (forall st, T st -> T' st) ->
  (forall code st, X code st -> X' code st) ->
  Ps1.triple h P' c Q' T' X'.
Proof.
  intros Hc HP HQ HT HX st HP'. specialize (Hc st (HP st HP')).
  destruct (c h st) as [[a|e|code] st']; auto.
Qed.

Lemma triple_write h P s msg T X :
  Ps1.about_commands P ->
  Ps1.triple h P (Ps1.write s msg) (fun _ => P) T X.
Proof. intros HP st H. simpl. apply (HP st); auto. Qed.

Lemma triple_sleep h P n T X :
  Ps1.about_commands P ->
  Ps1.triple h P (Ps1.Start_Sleep n) (fun _ => P) T X.
Proof. intros HP st H. simpl. apply (HP st); auto. Qed.

Lemma triple_test_path h P path T X :
  Ps1.triple h P (Ps1.Test_Path path) (fun _ => P) T X.
Proof. intros st H. exact H. Qed.

Lemma triple_lastexitcode h P T X :
  Ps1.triple h P Ps1.lastexitcode (fun _ => P) T X.
Proof. intros st H. exact H. Qed.

Lemma triple_exit {A : Type} h (P : Ps1.state -> Prop) code
      (Q : A -> Ps1.state -> Prop) T (X : Z -> Ps1.state -> Prop) :
  (forall st, P st -> X code st) ->
  Ps1.triple h P (Ps1.exit code) Q T X.
Proof. intros H st HP. simpl. auto. Qed.

(** ** The script after the prerequisites, for any invariant of the
    commands *)

Section Script.

Variable h : Ps1.host.
(** [I] holds between statements; [Ts] after a throw that the script may
    swallow; [Tx] after a throw whose [catch] reports it with [Write-Error];
    [Tf] after a throw nothing catches; [X] at an [exit]. *)
Variables I Ts Tx Tf : Ps1.state -> Prop.
Variable X : Z -> Ps1.state -> Prop.

Hypothesis I_commands : Ps1.about_commands I.
Hypothesis Ts_commands : Ps1.about_commands Ts.
Hypothesis Tx_Tf :
  forall st st',
    Ps1.started st = Ps1.started st' ->
    Ps1.LASTEXITCODE st = Ps1.LASTEXITCODE st' ->
    Tx st -> Tf st'.
Hypothesis Ts_I : forall st, Ts st -> I st.
Hypothesis Ts_Tx : forall st, Ts st -> Tx st.
Hypothesis Ts_Tf : forall st, Ts st -> Tf st.
Hypothesis invoke_unchecked :
  forall line, Ps1.is_checked line = false ->
    Ps1.triple h I (Ps1.invoke line) (fun _ => I) Ts X.
Hypothesis invoke_checked :
  forall line failure, Ps1.is_checked line = true ->
    Ps1.triple h I (Ps1.checked line failure) (fun _ => I) Tx X.

Lemma handler_exit1 {A : Type} msg (Q : A -> Ps1.state -> Prop) :
  Ps1.triple h Tx (Ps1.bind (Ps1.Write_Error msg) (fun _ => Ps1.exit 1)) Q Tf X.
Proof.
  intros st H. simpl. apply (Tx_Tf st); auto.
Qed.

Lemma handler_warning msg T :
  Ps1.triple h Ts (Ps1.Write_Warning msg) (fun _ => I) T X.
Proof.
  intros st H. simpl. apply Ts_I. apply (Ts_commands st); auto.
Qed.

Ltac host_line := apply triple_write; exact I_commands.

Ltac unchecked_in T :=
  apply (triple_weaken _ I I _ (fun _ => I) (fun _ => I) Ts T X X);
  [apply invoke_unchecked; vm_compute; reflexivity
  |auto|auto|auto|auto].

Ltac next :=
  eapply (triple_bind _ _ _ _ (fun _ => I)); [|intros ?; cbv beta].
Tactic Notation "next" "as" ident(x) :=
  eapply (triple_bind _ _ _ _ (fun _ => I)); [|intros x; cbv beta].

Lemma verify_azure_ok : Ps1.triple h I Ps1.verify_azure (fun _ => I) Tf X.
Proof.
  unfold Ps1.verify_azure. next; [host_line|].
  eapply triple_try; [|intros e; apply handler_exit1].
  next; [unchecked_in Tx|]. host_line.
Qed.

Lemma verify_kubectl_ok : Ps1.triple h I Ps1.verify_kubectl (fun _ => I) Tf X.
Proof.
  unfold Ps1.verify_kubectl. next; [host_line|].
  eapply triple_try; [|intros e; apply handler_exit1].
  next; [unchecked_in Tx|]. host_line.
Qed.

Lemma ensure_ingress_controller_ok :
  Ps1.triple h I Ps1.ensure_ingress_controller (fun _ => I) Tf X.
Proof.
  unfold Ps1.ensure_ingress_controller. next; [host_line|].
  next as ingressPods; [unchecked_in Tf|].
  destruct (negb (Ps1.truthy ingressPods)); [|host_line].
  next; [host_line|].
  eapply triple_try; [|intros e; apply handler_exit1].
  next; [host_line|].
  next; [apply invoke_checked; vm_compute; reflexivity|].
  next; [host_line|].
  next; [unchecked_in Tx|].
  next as code; [apply triple_lastexitcode|].
  destruct (negb (Z.eqb code 0)); host_line.
Qed.

Lemma build_and_push_ok :
  Ps1.triple h I Ps1.build_and_push (fun _ => I) Tf X.
Proof.
  unfold Ps1.build_and_push. next; [host_line|].
  eapply triple_try; [|intros e; apply handler_exit1].
  repeat (next; [first [host_line
                       |apply invoke_checked; vm_compute; reflexivity]|]).
  host_line.
Qed.

Lemma apply_manifest_ok manifest :
  Ps1.triple h I (Ps1.apply_manifest manifest) (fun _ => I) Tx X.
Proof.
  unfold Ps1.apply_manifest. next as present; [apply triple_test_path|].
  destruct present; [|host_line].
  next; [host_line|]. apply invoke_checked. reflexivity.
Qed.

Lemma foreach_manifest_ok items :
  Ps1.triple h I (Ps1.foreach items Ps1.apply_manifest) (fun _ => I) Tx X.
Proof.
  induction items as [|m items IH]; simpl.
  - apply triple_ret. auto.
  - next; [apply apply_manifest_ok|exact IH].
Qed.

Lemma apply_manifests_ok :
  Ps1.triple h I Ps1.apply_manifests (fun _ => I) Tf X.
Proof.
  unfold Ps1.apply_manifests. next; [host_line|].
  eapply triple_try; [|intros e; apply handler_exit1].
  next; [apply foreach_manifest_ok|].
  next as present; [apply triple_test_path|].
  next; [|host_line].
  destruct present; [|host_line].
  next; [host_line|].
  next; [apply invoke_checked; vm_compute; reflexivity|]. host_line.
Qed.

Lemma wait_for_deployments_ok :
  Ps1.triple h I Ps1.wait_for_deployments (fun _ => I) Tf X.
Proof.
  unfold Ps1.wait_for_deployments. next; [host_line|].
  eapply triple_try; [|intros e; apply handler_warning].
  next; [apply invoke_unchecked; vm_compute; reflexivity|].
  next; [apply invoke_unchecked; vm_compute; reflexivity|].
  host_line.
Qed.

Lemma query_ingress_ok :
  Ps1.triple h I Ps1.query_ingress (fun _ => I) Tf X.
Proof.
  unfold Ps1.query_ingress.
  eapply triple_try; [|intros e; apply triple_ret; exact Ts_I].
  next as info; [apply invoke_unchecked; vm_compute; reflexivity|].
  destruct (Ps1.has_address info); apply triple_ret; auto.
Qed.

Lemma poll_ingress_ok fuel : forall attempt ingressIP,
  Ps1.triple h I (Ps1.poll_ingress fuel attempt ingressIP) (fun _ => I) Tf X.
Proof.
  induction fuel as [|fuel IH]; intros attempt ingressIP; simpl.
  - apply triple_ret. auto.
  - destruct (Nat.ltb attempt Ps1.maxAttempts && negb (Ps1.truthy ingressIP));
      [|apply triple_ret; auto].
    next; [host_line|]. next as found; [apply query_ingress_ok|].
    destruct found as [ip|]; [apply triple_ret; auto|].
    next; [apply triple_sleep; exact I_commands|]. apply IH.
Qed.

Lemma show_status_ok :
  Ps1.triple h I Ps1.show_status (fun _ => I) Tf X.
Proof.
  unfold Ps1.show_status.
  repeat (next; [first [host_line|unchecked_in Tf]|]).
  apply triple_ret. auto.
Qed.

(** Everything after the prerequisites keeps [I]. *)
Lemma after_prerequisites_ok :
  Ps1.triple h I
    (Ps1.bind Ps1.verify_azure (fun _ =>
     Ps1.bind Ps1.verify_kubectl (fun _ =>
     Ps1.bind Ps1.ensure_ingress_controller (fun _ =>
     Ps1.bind Ps1.build_and_push (fun _ =>
     Ps1.bind Ps1.apply_manifests (fun _ =>
     Ps1.bind Ps1.wait_for_deployments (fun _ =>
     Ps1.bind Ps1.wait_for_ingress (fun ingressIP =>
     Ps1.bind Ps1.show_status (fun _ => Ps1.ret ingressIP)))))))))
    (fun _ => I) Tf X.
Proof.
  next; [apply verify_azure_ok|].
  next; [apply verify_kubectl_ok|].
  next; [apply ensure_ingress_controller_ok|].
  next; [apply build_and_push_ok|].
  next; [apply apply_manifests_ok|].
  next; [apply wait_for_deployments_ok|].
  next; [unfold Ps1.wait_for_ingress; next; [host_line|apply poll_ingress_ok]|].
  next; [apply show_status_ok|].
  apply triple_ret. auto.
Qed.

End Script.

(** ** The prerequisites *)

Lemma check_prerequisites_result h st :
  match Ps1.check_prerequisites h st with
  | (Ps1.Normal _, st') =>
      Ps1.tools_present h /\
      Ps1.started st' = Ps1.started st /\
      Ps1.LASTEXITCODE st' = Ps1.LASTEXITCODE st
  | (Ps1.Thrown error, st') =>
      ~ Ps1.tools_present h /\
      Ps1.started st' = Ps1.started st /\
      In error [ "Docker is not installed or not in PATH";
                 "kubectl is not installed or not in PATH";
                 "Azure CLI is not installed or not in PATH" ]
  | (Ps1.Exit _, _) => False
  end.
Proof.
  unfold Ps1.check_prerequisites, Ps1.require, Ps1.tools_present,
    Ps1.bind, Ps1.Test_CommandExists, Ps1.Write_Host, Ps1.Write_Error,
    Ps1.write, Ps1.exit, Ps1.ret.
  destruct (Ps1.has_command h "docker"); simpl;
    [|split; [intros [H _]; discriminate|split; [reflexivity|auto]]].
  destruct (Ps1.has_command h "kubectl"); simpl;
    [|split; [intros [_ [H _]]; discriminate|split; [reflexivity|auto]]].
  destruct (Ps1.has_command h "az"); simpl;
    [|split; [intros [_ [_ H]]; discriminate|split; [reflexivity|auto]]].
  repeat split; reflexivity.
Qed.

(** X12.  When docker, kubectl or az is not found, the [Write-Error] of the
    check ends the script with that error, uncaught, before it has started
    any external command; the [exit 1] behind it is not reached. *)
Theorem missing_tool_stops_before_any_command h :
  Ps1.has_command h "docker" = false \/
  Ps1.has_command h "kubectl" = false \/
  Ps1.has_command h "az" = false ->
  exists error st,
    Ps1.deploy_ps1 h Ps1.start = (Ps1.Thrown error, st) /\
    Ps1.started st = [] /\
    In error [ "Docker is not installed or not in PATH";
               "kubectl is not installed or not in PATH";
               "Azure CLI is not installed or not in PATH" ].
Proof.
  intros Hmissing. unfold Ps1.deploy_ps1.
  unfold Ps1.bind at 1.
  pose proof (check_prerequisites_result h Ps1.start) as Hc.
  destruct (Ps1.check_prerequisites h Ps1.start) as [[u|e|code] st'].
  - exfalso. destruct Hc as [[Hd [Hk Ha]] _].
    destruct Hmissing as [H|[H|H]]; congruence.
  - destruct Hc as [_ [Hs Hin]]. exists e, st'.
    split; [reflexivity|]. split; [exact Hs|exact Hin].
  - contradiction.
Qed.

Lemma missing_tool_stops_before_any_command_witness :
  exists error st,
    Ps1.deploy_ps1
      (Ps1.mkHost (fun tool => negb (String.eqb tool "az"))
                  (fun _ _ => Ps1.Returned 0 "") (fun _ => true))
      Ps1.start = (Ps1.Thrown error, st) /\
    Ps1.started st = [] /\
    In error [ "Docker is not installed or not in PATH";
               "kubectl is not installed or not in PATH";
               "Azure CLI is not installed or not in PATH" ].
Proof.
  apply (missing_tool_stops_before_any_command
           (Ps1.mkHost (fun tool => negb (String.eqb tool "az"))
                       (fun _ _ => Ps1.Returned 0 "") (fun _ => true))).
  right; right; vm_compute; reflexivity.
Defined.

(** ** Nothing is started after the command that stops the script *)

Lemma last_failed_commands h : Ps1.about_commands (Ps1.last_failed h).
Proof.
  intros st st' Hs _ [before [line [Hst Hf]]].
  exists before, line. rewrite <- Hs. auto.
Qed.

Lemma code_tracks_failure_commands h :
  Ps1.about_commands (Ps1.code_tracks_failure h).
Proof.
  intros st st' Hs Hc H Hne. rewrite <- Hc in Hne.
  apply (last_failed_commands h st st' Hs Hc). apply H. exact Hne.
Qed.

Lemma invoke_fail_fast h line :
  Ps1.triple h (Ps1.code_tracks_failure h) (Ps1.invoke line)
    (fun _ => Ps1.code_tracks_failure h) (Ps1.last_failed h)
    (fun _ _ => False).
Proof.
  intros st _. unfold Ps1.invoke.
  destruct (Ps1.native h (List.length (Ps1.started st)) line)
    as [e|status output] eqn:Hn.
  - exists (Ps1.started st), line. rewrite Hn. simpl. auto.
  - intros Hne. simpl in Hne.
    exists (Ps1.started st), line. rewrite Hn. simpl. auto.
Qed.

Lemma checked_fail_fast h line failure :
  Ps1.triple h (Ps1.code_tracks_failure h) (Ps1.checked line failure)
    (fun _ => Ps1.code_tracks_failure h) (Ps1.last_failed h)
    (fun _ _ => False).
Proof.
  intros st _. unfold Ps1.checked, Ps1.bind, Ps1.invoke, Ps1.lastexitcode.
  destruct (Ps1.native h (List.length (Ps1.started st)) line)
    as [e|status output] eqn:Hn.
  - exists (Ps1.started st), line. rewrite Hn. simpl. auto.
  - simpl. destruct (Z.eqb status 0) eqn:E; simpl.
    + apply Z.eqb_eq in E. subst status. intros Hne. simpl in Hne.
      exfalso. apply Hne. reflexivity.
    + apply Z.eqb_neq in E.
      exists (Ps1.started st), line. rewrite Hn. simpl. auto.
Qed.

(** X13.  However [deploy.ps1] stops early, no external command was started
    after the one that made it stop.  The script never ends through one of
    its [exit 1]: each stands behind a [Write-Error], which is terminating
    under line 98.  When it ends with an error, either a tool was missing
    and nothing had been started, or the last command started is one that
    failed: it threw, or it returned a non-zero status. *)
Theorem deploy_ps1_stops_at_the_failing_command h :
  match Ps1.deploy_ps1 h Ps1.start with
  | (Ps1.Normal _, _) => True
  | (Ps1.Thrown _, st) =>
      (Ps1.started st = [] /\ ~ Ps1.tools_present h) \/ Ps1.last_failed h st
  | (Ps1.Exit _, _) => False
  end.
Proof.
  unfold Ps1.deploy_ps1. unfold Ps1.bind at 1.
  pose proof (check_prerequisites_result h Ps1.start) as Hc.
  destruct (Ps1.check_prerequisites h Ps1.start) as [[u|e|code] st'].
  - destruct Hc as [_ [Hs Hl]].
    assert (HI : Ps1.code_tracks_failure h st').
    { intros Hne. rewrite Hl in Hne. exfalso. apply Hne. reflexivity. }
    pose proof (after_prerequisites_ok h
                  (Ps1.code_tracks_failure h) (Ps1.last_failed h)
                  (Ps1.last_failed h) (Ps1.last_failed h)
                  (fun _ _ => False)
                  (code_tracks_failure_commands h)
                  (last_failed_commands h)
                  (last_failed_commands h)
                  (fun st H _ => H) (fun st H => H) (fun st H => H)
                  (fun line _ => invoke_fail_fast h line)
                  (fun line failure _ => checked_fail_fast h line failure)
                  st' HI) as Hrest.
    destruct (Ps1.bind Ps1.verify_azure _ h st') as [[ip|e|code] st''].
    + exact I.
    + right. exact Hrest.
    + exact Hrest.
  - destruct Hc as [Ht [Hs _]]. left. split; [exact Hs|exact Ht].
  - contradiction.
Qed.

(** ** A normal end means every checked command succeeded *)

Lemma checked_ok_commands h :
  Ps1.about_commands
    (fun st => Ps1.tools_present h /\ Ps1.checked_ok h st).
Proof.
  intros st st' Hs _ [Ht H]. split; [exact Ht|].
  intros n line Hn. rewrite <- Hs in Hn. apply H. exact Hn.
Qed.

Lemma checked_ok_snoc h st line :
  Ps1.checked_ok h st ->
  (Ps1.is_checked line = true ->
   exists output,
     Ps1.native h (List.length (Ps1.started st)) line = Ps1.Returned 0 output) ->
  forall n l,
    nth_error (Ps1.started st ++ [line]) n = Some l ->
    Ps1.is_checked l = true ->
    exists output, Ps1.native h n l = Ps1.Returned 0 output.
Proof.
  intros H Hline n l Hn Hl.
  destruct (Nat.lt_ge_cases n (List.length (Ps1.started st))) as [Hlt|Hge].
  - rewrite nth_error_app1 in Hn by exact Hlt. apply H; assumption.
  - rewrite nth_error_app2 in Hn by exact Hge.
    destruct (n - List.length (Ps1.started st)) as [|k] eqn:E; simpl in Hn.
    + inversion Hn; subst l.
      replace n with (List.length (Ps1.started st)) by lia. apply Hline, Hl.
    + destruct k; discriminate.
Qed.

Lemma invoke_keeps_checked_ok h line :
  Ps1.is_checked line = false ->
  Ps1.triple h (fun st => Ps1.tools_present h /\ Ps1.checked_ok h st)
    (Ps1.invoke line)
    (fun _ st => Ps1.tools_present h /\ Ps1.checked_ok h st)
    (fun st => Ps1.tools_present h /\ Ps1.checked_ok h st)
    (fun _ _ => True).
Proof.
  intros Hline st [Ht H]. unfold Ps1.invoke.
  destruct (Ps1.native h (List.length (Ps1.started st)) line)
    as [e|status output]; (split; [exact Ht|]);
    intros n l Hn Hl; simpl in Hn;
    apply (checked_ok_snoc h st line H); auto; congruence.
Qed.

Lemma checked_keeps_checked_ok h line failure :
  Ps1.triple h (fun st => Ps1.tools_present h /\ Ps1.checked_ok h st)
    (Ps1.checked line failure)
    (fun _ st => Ps1.tools_present h /\ Ps1.checked_ok h st)
    (fun _ => True) (fun _ _ => True).
Proof.
  intros st [Ht H]. unfold Ps1.checked, Ps1.bind, Ps1.invoke, Ps1.lastexitcode.
  destruct (Ps1.native h (List.length (Ps1.started st)) line)
    as [e|status output] eqn:Hn; [exact I|].
  simpl. destruct (Z.eqb status 0) eqn:E; simpl; [|exact I].
  apply Z.eqb_eq in E. subst status. split; [exact Ht|].
  intros n l Hnth Hl. simpl in Hnth.
  apply (checked_ok_snoc h st line H); auto.
  intros _. exists output. exact Hn.
Qed.

(** X14.  When [deploy.ps1] runs to its end, the three tools were found and
    every [docker] command and every [kubectl apply] it started returned
    status 0: a failed build, push or apply never goes unnoticed. *)
Theorem deploy_ps1_ends_only_if_checked_commands_succeeded h ip st :
  Ps1.deploy_ps1 h Ps1.start = (Ps1.Normal ip, st) ->
  Ps1.tools_present h /\ Ps1.checked_ok h st.
Proof.
  unfold Ps1.deploy_ps1. unfold Ps1.bind at 1.
  pose proof (check_prerequisites_result h Ps1.start) as Hc.
  destruct (Ps1.check_prerequisites h Ps1.start) as [[u|e|code] st'];
    [|discriminate|discriminate].
  destruct Hc as [Ht [Hs _]]. intros Hrun.
  assert (HI : Ps1.tools_present h /\ Ps1.checked_ok h st').
  { split; [exact Ht|]. intros n line Hn. rewrite Hs in Hn.
    destruct n; discriminate. }
  pose proof (after_prerequisites_ok h
                (fun st => Ps1.tools_present h /\ Ps1.checked_ok h st)
                (fun st => Ps1.tools_present h /\ Ps1.checked_ok h st)
                (fun _ => True) (fun _ => True) (fun _ _ => True)
                (checked_ok_commands h) (checked_ok_commands h)
                (fun _ _ _ _ _ => I)
                (fun st H => H) (fun _ _ => I) (fun _ _ => I)
                (invoke_keeps_checked_ok h)
                (fun line failure _ => checked_keeps_checked_ok h line failure)
                st' HI) as Hrest.
  rewrite Hrun in Hrest. exact Hrest.
Qed.

Lemma deploy_ps1_ends_only_if_checked_commands_succeeded_witness :
  fst (Ps1.deploy_ps1 (Ps1.quiet_host (fun _ => 0%Z)) Ps1.start)
    = Ps1.Normal "" /\
  Ps1.tools_present (Ps1.quiet_host (fun _ => 0%Z)) /\
  Ps1.checked_ok (Ps1.quiet_host (fun _ => 0%Z))
    (snd (Ps1.deploy_ps1 (Ps1.quiet_host (fun _ => 0%Z)) Ps1.start)).
Proof.
  split; [vm_compute; reflexivity|].
  apply (deploy_ps1_ends_only_if_checked_commands_succeeded
           (Ps1.quiet_host (fun _ => 0%Z)) ""
           (snd (Ps1.deploy_ps1 (Ps1.quiet_host (fun _ => 0%Z)) Ps1.start))).
  vm_compute; reflexivity.
Defined.

(** ** Waiting for the ingress address *)

Lemma query_ingress_result h st :
  Ps1.query_ingress h st =
  match Ps1.native h (List.length (Ps1.started st)) Ps1.get_ingress_ip with
  | Ps1.Threw _ =>
      (Ps1.Normal None,
       Ps1.mkState (Ps1.started st ++ [Ps1.get_ingress_ip]) (Ps1.shown st)
                   (Ps1.LASTEXITCODE st) (Ps1.slept st))
  | Ps1.Returned status output =>
      (Ps1.Normal (if Ps1.has_address output then Some output else None),
       Ps1.mkState (Ps1.started st ++ [Ps1.get_ingress_ip]) (Ps1.shown st)
                   status (Ps1.slept st))
  end.
Proof.
  unfold Ps1.query_ingress, Ps1.try_catch, Ps1.bind, Ps1.invoke.
  destruct (Ps1.native h (List.length (Ps1.started st)) Ps1.get_ingress_ip)
    as [e|status output]; [reflexivity|].
  destruct (Ps1.has_address output); reflexivity.
Qed.

Lemma has_address_not_empty ip : Ps1.has_address ip = true -> ip <> "".
Proof. intros H ->. discriminate H. Qed.

Lemma poll_ingress_spec h fuel : forall attempt st,
  attempt + fuel = Ps1.maxAttempts ->
  exists ip st' q,
    Ps1.poll_ingress fuel attempt "" h st = (Ps1.Normal ip, st') /\
    Ps1.started st' = (Ps1.started st ++ repeat Ps1.get_ingress_ip q)%list /\
    q <= fuel /\
    (forall i, i < (if String.eqb ip "" then q else q - 1) ->
       Ps1.no_address
         (Ps1.native h (List.length (Ps1.started st) + i) Ps1.get_ingress_ip)) /\
    (ip = "" -> q = fuel /\ Ps1.slept st' = Ps1.slept st + 10 * fuel) /\
    (ip <> "" ->
       1 <= q /\ Ps1.slept st' = Ps1.slept st + 10 * (q - 1) /\
       Ps1.has_address ip = true /\
       exists status,
         Ps1.native h (List.length (Ps1.started st) + (q - 1))
                    Ps1.get_ingress_ip
         = Ps1.Returned status ip).
Proof.
  induction fuel as [|fuel IH]; intros attempt st Hsum.
  - exists "", st, 0. cbn [Ps1.poll_ingress repeat]. rewrite app_nil_r.
    split; [reflexivity|]. split; [reflexivity|]. split; [lia|].
    split; [intros i Hi; simpl in Hi; lia|].
    split; [intros _; split; [reflexivity|lia]|].
    intros Hne. exfalso. apply Hne. reflexivity.
  - assert (Hlt : Nat.ltb attempt Ps1.maxAttempts = true)
      by (apply Nat.ltb_lt; lia).
    assert (Hnext : S attempt + fuel = Ps1.maxAttempts) by lia.
    cbn [Ps1.poll_ingress]. rewrite Hlt.
    change (negb (Ps1.truthy "")) with true. cbn [andb].
    unfold Ps1.bind at 1. unfold Ps1.Write_Host at 1, Ps1.write at 1.
    unfold Ps1.bind at 1. rewrite query_ingress_result. cbn [Ps1.started].
    destruct (Ps1.native h (List.length (Ps1.started st)) Ps1.get_ingress_ip)
      as [e|status output] eqn:Hn.
    + (* the query threw: sleep and go on *)
      unfold Ps1.bind at 1, Ps1.Start_Sleep at 1.
      match goal with
      | |- context [Ps1.poll_ingress fuel (S attempt) "" h ?s] =>
          destruct (IH (S attempt) s Hnext)
            as [ip [st' [q [Hrun [Hst [Hq [Hno [He Hf]]]]]]]]
      end.
      cbn [Ps1.started Ps1.slept] in Hst, Hno, He, Hf.
      rewrite length_app in Hno, Hf. cbn [List.length] in Hno, Hf.
      exists ip, st', (S q). rewrite Hrun. split; [reflexivity|].
      split; [rewrite Hst, <- app_assoc; reflexivity|].
      split; [lia|]. split; [|split].
      * intros i Hi. destruct i as [|i].
        -- rewrite Nat.add_0_r, Hn. exact I.
        -- replace (List.length (Ps1.started st) + S i)
             with (List.length (Ps1.started st) + 1 + i) by lia.
           apply Hno. destruct (String.eqb ip ""); lia.
      * intros Hip. destruct (He Hip) as [-> Hs]. split; [reflexivity|].
        rewrite Hs. lia.
      * intros Hip. destruct (Hf Hip) as [Hq1 [Hs [Ha [status Hnat]]]].
        split; [lia|]. split; [rewrite Hs; lia|]. split; [exact Ha|].
        exists status.
        replace (List.length (Ps1.started st) + (S q - 1))
          with (List.length (Ps1.started st) + 1 + (q - 1)) by lia.
        exact Hnat.
    + destruct (Ps1.has_address output) eqn:Ha.
      * (* an address: the loop ends here *)
        exists output, (Ps1.mkState (Ps1.started st ++ [Ps1.get_ingress_ip])
                          (Ps1.shown st ++ [(Ps1.Host,
                             "Attempt " ++ Ps1.decimal (S attempt) ++ " of "
                             ++ Ps1.decimal Ps1.maxAttempts ++ "...")])
                          status (Ps1.slept st)), 1.
        pose proof (has_address_not_empty output Ha) as Hne.
        split; [reflexivity|]. split; [reflexivity|]. split; [lia|].
        split; [|split].
        -- intros i Hi. apply String.eqb_neq in Hne. rewrite Hne in Hi. lia.
        -- intros Hip. contradiction.
        -- intros _. split; [lia|]. split; [simpl; lia|].
           split; [exact Ha|]. exists status. rewrite Nat.add_0_r. exact Hn.
      * (* no address yet: sleep and go on *)
        unfold Ps1.bind at 1, Ps1.Start_Sleep at 1.
        match goal with
        | |- context [Ps1.poll_ingress fuel (S attempt) "" h ?s] =>
            destruct (IH (S attempt) s Hnext)
              as [ip [st' [q [Hrun [Hst [Hq [Hno [He Hf]]]]]]]]
        end.
        cbn [Ps1.started Ps1.slept] in Hst, Hno, He, Hf.
        rewrite length_app in Hno, Hf. cbn [List.length] in Hno, Hf.
        exists ip, st', (S q). rewrite Hrun. split; [reflexivity|].
        split; [rewrite Hst, <- app_assoc; reflexivity|].
        split; [lia|]. split; [|split].
        -- intros i Hi. destruct i as [|i].
           ++ rewrite Nat.add_0_r, Hn. exact Ha.
           ++ replace (List.length (Ps1.started st) + S i)
                with (List.length (Ps1.started st) + 1 + i) by lia.
              apply Hno. destruct (String.eqb ip ""); lia.
        -- intros Hip. destruct (He Hip) as [-> Hs]. split; [reflexivity|].
           rewrite Hs. lia.
        -- intros Hip. destruct (Hf Hip) as [Hq1 [Hs [Ha' [status' Hnat]]]].
           split; [lia|]. split; [rewrite Hs; lia|]. split; [exact Ha'|].
           exists status'.
           replace (List.length (Ps1.started st) + (S q - 1))
             with (List.length (Ps1.started st) + 1 + (q - 1)) by lia.
           exact Hnat.
Qed.

(** X15.  Waiting for the ingress address never fails and asks at most 30
    times.  It stops at the first answer that is non-empty and not
    ["<no value>"] and returns it, having slept 10 seconds after each of the
    answers before; when none of 30 answers is an address it returns the
    empty string after 300 seconds. *)
Theorem wait_for_ingress_is_bounded h st :
  exists ip st' q,
    Ps1.wait_for_ingress h st = (Ps1.Normal ip, st') /\
    Ps1.started st' = (Ps1.started st ++ repeat Ps1.get_ingress_ip q)%list /\
    1 <= q <= 30 /\
    (forall i, i < (if String.eqb ip "" then q else q - 1) ->
       Ps1.no_address
         (Ps1.native h (List.length (Ps1.started st) + i) Ps1.get_ingress_ip)) /\
    (ip = "" -> q = 30 /\ Ps1.slept st' = Ps1.slept st + 300) /\
    (ip <> "" ->
       Ps1.slept st' = Ps1.slept st + 10 * (q - 1) /\
       Ps1.has_address ip = true /\
       exists status,
         Ps1.native h (List.length (Ps1.started st) + (q - 1))
                    Ps1.get_ingress_ip
         = Ps1.Returned status ip).
Proof.
  unfold Ps1.wait_for_ingress, Ps1.bind, Ps1.Write_Host, Ps1.write.
  match goal with
  | |- context [Ps1.poll_ingress _ 0 "" h ?s] =>
      destruct (poll_ingress_spec h Ps1.maxAttempts 0 s eq_refl)
        as [ip [st' [q [Hrun [Hst [Hq [Hno [He Hf]]]]]]]]
  end.
  cbn [Ps1.started Ps1.slept] in Hst, Hno, He, Hf.
  exists ip, st', q. rewrite Hrun. split; [reflexivity|].
  split; [exact Hst|]. unfold Ps1.maxAttempts in *.
  destruct (String.eqb ip "") eqn:E.
  - apply String.eqb_eq in E. destruct (He E) as [-> Hs].
    split; [lia|]. split; [exact Hno|]. split; [auto|].
    intros Hne. contradiction.
  - apply String.eqb_neq in E. destruct (Hf E) as [Hq1 [Hs Hrest]].
    split; [lia|]. split; [exact Hno|]. split; [intros; contradiction|].
    intros _. split; [exact Hs|exact Hrest].
Qed.

(** X16.  The [while] stops by its own condition: once the unfolding bound
    covers the attempts that are left, a larger bound changes nothing. *)
Theorem poll_ingress_needs_no_more_fuel h fuel : forall attempt ip extra st,
  Ps1.maxAttempts <= attempt + fuel ->
  Ps1.poll_ingress (fuel + extra) attempt ip h st
  = Ps1.poll_ingress fuel attempt ip h st.
Proof.
  induction fuel as [|fuel IH]; intros attempt ip extra st Hle.
  - simpl. destruct extra as [|extra]; [reflexivity|].
    cbn [Ps1.poll_ingress].
    replace (Nat.ltb attempt Ps1.maxAttempts) with false
      by (symmetry; apply Nat.ltb_ge; lia).
    reflexivity.
  - cbn [Nat.add Ps1.poll_ingress].
    destruct (Nat.ltb attempt Ps1.maxAttempts && negb (Ps1.truthy ip));
      [|reflexivity].
    unfold Ps1.bind.
    destruct (Ps1.Write_Host _ h st) as [[u|e|code] st1]; try reflexivity.
    destruct (Ps1.query_ingress h st1) as [[[found|]|e|code] st2];
      try reflexivity.
    destruct (Ps1.Start_Sleep 10 h st2) as [[u'|e|code] st3]; try reflexivity.
    apply IH. lia.
Qed.

Lemma poll_ingress_needs_no_more_fuel_witness :
  Ps1.maxAttempts <= 0 + 30 /\
  Ps1.poll_ingress (30 + 5) 0 "" (Ps1.quiet_host (fun _ => 0%Z)) Ps1.start
  = Ps1.poll_ingress 30 0 "" (Ps1.quiet_host (fun _ => 0%Z)) Ps1.start.
Proof.
  split; [vm_compute; lia|].
  apply (poll_ingress_needs_no_more_fuel
           (Ps1.quiet_host (fun _ => 0%Z)) 30 0 "" 5 Ps1.start).
  vm_compute; lia.
Defined.

(** ** Steps whose status the script does not look at *)

(** X17.  Waiting for the two deployments never stops the script.  When the
    two [kubectl wait] commands run, the script prints "Deployments are
    ready!" whatever status they return, a timeout included. *)
Theorem deployment_wait_status_is_ignored h st :
  (exists st', Ps1.wait_for_deployments h st = (Ps1.Normal tt, st')) /\
  (forall s1 o1 s2 o2,
     Ps1.native h (List.length (Ps1.started st)) Ps1.wait_backend
       = Ps1.Returned s1 o1 ->
     Ps1.native h (S (List.length (Ps1.started st))) Ps1.wait_frontend
       = Ps1.Returned s2 o2 ->
     exists st',
       Ps1.wait_for_deployments h st = (Ps1.Normal tt, st') /\
       Ps1.shown st' =
         (Ps1.shown st ++
          [(Ps1.Host, "Waiting for deployments to be ready...");
           (Ps1.Host, "Deployments are ready!")])%list /\
       Ps1.started st' =
         (Ps1.started st ++ [Ps1.wait_backend; Ps1.wait_frontend])%list).
Proof.
  unfold Ps1.wait_for_deployments, Ps1.try_catch, Ps1.bind, Ps1.invoke,
    Ps1.Write_Host, Ps1.Write_Warning, Ps1.write.
  cbn [Ps1.started Ps1.shown Ps1.LASTEXITCODE Ps1.slept].
  split.
  - destruct (Ps1.native h (List.length (Ps1.started st)) Ps1.wait_backend);
      [eexists; reflexivity|].
    cbn [Ps1.started].
    destruct (Ps1.native h _ Ps1.wait_frontend); eexists; reflexivity.
  - intros s1 o1 s2 o2 H1 H2. rewrite H1. cbn [Ps1.started].
    rewrite length_app. cbn [List.length]. rewrite Nat.add_1_r, H2.
    eexists. split; [reflexivity|]. cbn [Ps1.shown Ps1.started].
    rewrite <- !app_assoc. split; reflexivity.
Qed.

Lemma deployment_wait_status_is_ignored_witness :
  exists st',
    Ps1.wait_for_deployments (Ps1.quiet_host (fun _ => 1%Z)) Ps1.start
      = (Ps1.Normal tt, st') /\
    Ps1.shown st' =
      (Ps1.shown Ps1.start ++
       [(Ps1.Host, "Waiting for deployments to be ready...");
        (Ps1.Host, "Deployments are ready!")])%list /\
    Ps1.started st' =
      (Ps1.started Ps1.start ++ [Ps1.wait_backend; Ps1.wait_frontend])%list.
Proof.
  apply (proj2 (deployment_wait_status_is_ignored
                  (Ps1.quiet_host (fun _ => 1%Z)) Ps1.start)
               1%Z "" 1%Z ""); reflexivity.
Defined.

(** X18.  When the query for the ingress controller prints anything, the
    controller counts as installed: nothing is installed and no other
    command is started, whatever status the query returned. *)
Theorem found_controller_is_not_reinstalled h st status pods :
  Ps1.native h (List.length (Ps1.started st)) Ps1.get_ingress_pods
    = Ps1.Returned status pods ->
  pods <> "" ->
  exists st',
    Ps1.ensure_ingress_controller h st = (Ps1.Normal tt, st') /\
    Ps1.started st' = (Ps1.started st ++ [Ps1.get_ingress_pods])%list.
Proof.
  intros Hn Hne.
  unfold Ps1.ensure_ingress_controller.
  unfold Ps1.bind at 1. unfold Ps1.Write_Host at 1, Ps1.write at 1.
  unfold Ps1.bind at 1. unfold Ps1.invoke at 1.
  cbn [Ps1.started Ps1.shown Ps1.LASTEXITCODE Ps1.slept].
  rewrite Hn. unfold Ps1.truthy.
  apply String.eqb_neq in Hne. rewrite Hne. cbn [negb].
  eexists. split; reflexivity.
Qed.

Lemma found_controller_is_not_reinstalled_witness :
  exists st',
    Ps1.ensure_ingress_controller
      (Ps1.mkHost (fun _ => true)
                  (fun _ _ => Ps1.Returned 1 "pod/ingress-nginx-controller")
                  (fun _ => true))
      Ps1.start = (Ps1.Normal tt, st') /\
    Ps1.started st' = (Ps1.started Ps1.start ++ [Ps1.get_ingress_pods])%list.
Proof.
  apply (found_controller_is_not_reinstalled
           (Ps1.mkHost (fun _ => true)
                       (fun _ _ => Ps1.Returned 1 "pod/ingress-nginx-controller")
                       (fun _ => true))
           Ps1.start 1%Z "pod/ingress-nginx-controller").
  - reflexivity.
  - discriminate.
Defined.

(** ** The manifests *)

(** X19.  The loop over the manifests skips a file that [Test-Path] does not
    find, with a warning and without failing.  When every manifest that is
    there applies with status 0, the loop ends normally having started one
    [kubectl apply -f] per manifest that is there, in the order of the
    list. *)
Theorem missing_manifests_are_skipped h items : forall st,
  (forall n m, In m items -> Ps1.test_path h m = true ->
     exists output,
       Ps1.native h n ("kubectl apply -f " ++ m) = Ps1.Returned 0 output) ->
  exists st',
    Ps1.foreach items Ps1.apply_manifest h st = (Ps1.Normal tt, st') /\
    Ps1.started st' =
      (Ps1.started st ++
       map (fun m => ("kubectl apply -f " ++ m)%string)
           (filter (Ps1.test_path h) items))%list.
Proof.
  induction items as [|m items IH]; intros st Hok.
  - exists st. simpl. rewrite app_nil_r. split; reflexivity.
  - assert (Hone : exists st1,
               Ps1.apply_manifest m h st = (Ps1.Normal tt, st1) /\
               Ps1.started st1 =
                 (Ps1.started st ++
                  map (fun m => ("kubectl apply -f " ++ m)%string)
                      (if Ps1.test_path h m then [m] else []))%list).
    { unfold Ps1.apply_manifest, Ps1.bind, Ps1.Test_Path.
      destruct (Ps1.test_path h m) eqn:Hp.
      - unfold Ps1.Write_Host, Ps1.write, Ps1.checked, Ps1.bind,
          Ps1.invoke, Ps1.lastexitcode.
        cbn [Ps1.started Ps1.shown Ps1.LASTEXITCODE Ps1.slept].
        destruct (Hok (List.length (Ps1.started st)) m (or_introl eq_refl) Hp)
          as [output Hn].
        rewrite Hn. eexists. split; reflexivity.
      - eexists. split; [reflexivity|]. simpl. rewrite app_nil_r.
        reflexivity. }
    destruct Hone as [st1 [Hrun1 Hst1]].
    destruct (IH st1 (fun n m' Hin => Hok n m' (or_intror Hin)))
      as [st' [Hrun Hst]].
    exists st'. cbn [Ps1.foreach]. unfold Ps1.bind. rewrite Hrun1.
    split; [exact Hrun|]. rewrite Hst, Hst1. cbn [filter].
    destruct (Ps1.test_path h m); cbn [map];
      rewrite <- app_assoc; reflexivity.
Qed.

Lemma missing_manifests_are_skipped_witness :
  exists st',
    Ps1.foreach Ps1.manifests Ps1.apply_manifest
      (Ps1.mkHost (fun _ => true) (fun _ _ => Ps1.Returned 0 "")
                  (fun path => negb (String.eqb path "k8s/hpa.yaml")))
      Ps1.start = (Ps1.Normal tt, st') /\
    Ps1.started st' =
      (Ps1.started Ps1.start ++
       map (fun m => ("kubectl apply -f " ++ m)%string)
           (filter (Ps1.test_path
                      (Ps1.mkHost (fun _ => true)
                         (fun _ _ => Ps1.Returned 0 "")
                         (fun path => negb (String.eqb path "k8s/hpa.yaml"))))
                   Ps1.manifests))%list.
Proof.
  apply (missing_manifests_are_skipped
           (Ps1.mkHost (fun _ => true) (fun _ _ => Ps1.Returned 0 "")
                       (fun path => negb (String.eqb path "k8s/hpa.yaml")))
           Ps1.manifests Ps1.start).
  intros n m _ _. exists "". reflexivity.
Defined.

(** * deploy.sh, any script *)

Lemma last_cons {A : Type} (l : list A) : forall x d,
  last (x :: l) d = last l x.
Proof.
  induction l as [|y l IH]; intros x d; [reflexivity|].
  change (last (x :: y :: l) d) with (last (y :: l) d).
  rewrite (IH y d), (IH y x). reflexivity.
Qed.

(** X20.  A script run without [-e], whatever its commands: every external
    command is started, in order, whatever the commands before it returned,
    and the script exits with the status of its last command ([echo] gives
    0), or with the status it began with when it is empty. *)
Theorem sh_runs_every_command status_of cmds : forall acc,
  DeploySh.started (DeploySh.sh status_of cmds acc)
    = (DeploySh.started acc ++ DeploySh.externals cmds)%list /\
  DeploySh.exit_status (DeploySh.sh status_of cmds acc)
    = last (map (fun c => match c with
                          | DeploySh.Echo _ => 0%Z
                          | DeploySh.External line => status_of line
                          end) cmds)
           (DeploySh.exit_status acc).
Proof.
  induction cmds as [|c cmds IH]; intros acc.
  - simpl. rewrite app_nil_r. split; reflexivity.
  - cbn [map]. rewrite last_cons. destruct c as [msg|line]; cbn [DeploySh.sh].
    + destruct (IH (DeploySh.mkResult 0 (DeploySh.started acc))) as [Hs He].
      split; [rewrite Hs; reflexivity|rewrite He; reflexivity].
    + destruct (IH (DeploySh.mkResult (status_of line)
                      (DeploySh.started acc ++ [line]))) as [Hs He].
      split; [|rewrite He; reflexivity].
      rewrite Hs. cbn [DeploySh.started DeploySh.externals flat_map].
      rewrite <- app_assoc. reflexivity.
Qed.
